(** * An in-memory search index: inverted index, query parser, matching,
      removal and duplicate detection

    Shallow embedding of [string_processing.h], [string_processing.cpp],
    [search_server.cpp] and [RemoveDuplicates] of
    [test_example_functions.cpp].

    Conventions of the embedding.
    - A [std::string] and a [std::string_view] are both the sequence of
      bytes they denote ([string]). The keys of both posting maps are views
      into the texts kept in [documents_]: a key made for a document points
      into the text of that document. Every text is alive until
      [RemoveDocument] erases it; the one read of a view whose text has
      been erased, in [RemoveDocument] itself, is undefined behaviour
      ([undefined_behaviour]).
    - [int] is [Z]; the only arithmetic on [int] is the rating average,
      whose sum wraps around at 2^31 as the compiled code has it (the
      overflow is undefined in the language).
    - [std::map] is [gmap], [std::set] is [gset]; where the source iterates
      such a container, the embedding iterates its elements in ascending key
      order.
    - [double] is a parameter of the index ([FreqArith]); its instance is
      IEEE binary64 ([binary64_arith]).
    - A C++ exception is a [Throws] outcome together with the state of the
      server at the moment of the throw; so is undefined behaviour, with the
      state the containers are in when it occurs.
    - The algorithms run under [execution::par] are their sequential
      results where the standard fixes the result ([any_of], [copy_if],
      [transform]); the parallel [for_each] runs its bodies in an order
      that is a parameter.

    The ranking functions ([FindTopDocuments], whose body is in a header
    that is not among the sources, and [ComputeWordInverseDocumentFreq],
    which takes a logarithm) are not part of the development;
    [ProcessQueries] and [ProcessQueriesJoined] are modelled over the search
    as a parameter. The functions of [test_example_functions.cpp] that only
    print are left out. *)

From Stdlib Require Import ZArith QArith Qpower String Ascii Lia Lqa SpecFloat.
From stdpp Require Import base option list sorting gmap sets strings.

#[local] Set Warnings "-clear-no-such-hyp".

(** ** string_processing *)

Module StringProcessing.

(** [str.find(c)]; [None] stands for [npos]. *)
Fixpoint find (c : ascii) (str : string) : option nat :=
  match str with
  | EmptyString => None
  | String c' str' =>
      if Ascii.eqb c' c then Some 0 else S <$> find c str'
  end.

(** [str.substr(0, count)], where [count] may be [npos]. *)
Definition substr0 (count : option nat) (str : string) : string :=
  match count with
  | None => str
  | Some n => String.substring 0 n str
  end.

(** [str.remove_prefix(n)]. *)
Fixpoint remove_prefix (n : nat) (str : string) : string :=
  match n, str with
  | 0, _ => str
  | S n', String _ str' => remove_prefix n' str'
  | S _, EmptyString => EmptyString
  end.

(** The [while (true)] loop of [SplitIntoWords]; each turn consumes at least
    one byte of [str], so [S (length str)] turns always reach the [break]. *)
Fixpoint SplitIntoWords_loop (fuel : nat) (str : string) (result : list string)
  : list string :=
  match fuel with
  | 0 => result
  | S fuel' =>
      let space := find " "%char str in
      let result := result ++ [substr0 space str] in
      match space with
      | None => result
      | Some i => SplitIntoWords_loop fuel' (remove_prefix (i + 1) str) result
      end
  end.

Definition SplitIntoWords (str : string) : list string :=
  SplitIntoWords_loop (S (String.length str)) str [].

(** [MakeUniqueNonEmptyStrings]. *)
Definition MakeUniqueNonEmptyStrings (strings : list string) : gset string :=
  foldl (λ non_empty_strings str,
           if decide (str = "") then non_empty_strings
           else {[ str ]} ∪ non_empty_strings) ∅ strings.

(** The segments a text falls into when it is cut at every space, written
    by recursion on the text: the reference [SplitIntoWords] is compared
    with. A text with [n] spaces has [n + 1] segments, some of them possibly
    empty. *)
Fixpoint segments (str : string) : list string :=
  match str with
  | EmptyString => [EmptyString]
  | String c str' =>
      if Ascii.eqb c " "%char then EmptyString :: segments str'
      else match segments str' with
           | w :: ws => String c w :: ws
           | [] => [String c EmptyString]
           end
  end.

(** The tokens joined back with single spaces. *)
Fixpoint join_spaces (ws : list string) : string :=
  match ws with
  | [] => ""
  | [w] => w
  | w :: ws' => w +:+ String " "%char (join_spaces ws')
  end.

End StringProcessing.
Export StringProcessing.

(** ** Arithmetic of term frequencies *)

(** What [AddDocument] needs from [double]. *)
Class FreqArith (F : Type) := {
  f_zero : F;              (* the value [operator[]] inserts *)
  f_one : F;               (* [1.0] *)
  f_of_size : nat → F;     (* conversion of a [size_t] *)
  f_add : F → F → F;
  f_div : F → F → F
}.

(** IEEE 754 binary64, round to nearest even. *)
Definition prec64 : Z := 53.
Definition emax64 : Z := 1024.

#[export] Instance binary64_arith : FreqArith spec_float := {
  f_zero := S754_zero false;
  f_one := SFone prec64 emax64;
  f_of_size n := binary_normalize prec64 emax64 (Z.of_nat n) 0 false;
  f_add := SFadd prec64 emax64;
  f_div := SFdiv prec64 emax64
}.

(** ** Data model *)

(** Modelled from the spec: the enumeration [DocumentStatus] of [document.h],
    which is absent from the sources; section 3 of the specification names
    its states. *)
Inductive DocumentStatus := ACTIVE | IRRELEVANT | BANNED | REMOVED.

Record DocumentData := {
  rating : Z;
  status : DocumentStatus;
  text : string
}.

Record QueryWord := {
  data : string;
  is_minus : bool;
  is_stop : bool
}.

Record Query := {
  plus_words : list string;
  minus_words : list string
}.

Inductive exception :=
  | invalid_argument (what : string)
  | out_of_range
  | terminate             (* an exception escaping a parallel algorithm *)
  | undefined_behaviour.  (* a read of a view into an erased text *)

Inductive outcome (A : Type) :=
  | Returns (a : A)
  | Throws (e : exception).
Arguments Returns {A} a.
Arguments Throws {A} e.

Record SearchServer (F : Type) := {
  stop_words_ : gset string;
  word_to_document_freqs_ : gmap string (gmap Z F);
  document_to_word_freqs_ : gmap Z (gmap string F);
  documents_ : gmap Z DocumentData;
  document_ids_ : gset Z
}.
Arguments stop_words_ {F} _.
Arguments word_to_document_freqs_ {F} _.
Arguments document_to_word_freqs_ {F} _.
Arguments documents_ {F} _.
Arguments document_ids_ {F} _.

(** [std::sort] on strings ordered by [operator<] of [string_view] (bytes
    compared as unsigned values), and [std::unique] followed by [erase]. *)
Definition sort (ws : list string) : list string := merge_sort String.le ws.

Fixpoint unique_from (x : string) (ws : list string) : list string :=
  match ws with
  | [] => [x]
  | y :: ws' => if decide (x = y) then unique_from x ws' else x :: unique_from y ws'
  end.

Definition unique (ws : list string) : list string :=
  match ws with
  | [] => []
  | x :: ws' => unique_from x ws'
  end.

(** The elements of a [std::set<int>] in iteration order. *)
Definition in_order (ids : gset Z) : list Z := merge_sort Z.le (elements ids).

(** The entries of a [std::map<string_view, double>] in iteration order. *)
Definition entries_in_order {F} (m : gmap string F) : list (string * F) :=
  merge_sort (λ a b, String.le a.1 b.1) (map_to_list m).

(** ** search_server.cpp *)

Section Server.
Context {F : Type} `{!FreqArith F}.

Abbreviation Server := (SearchServer F).

(** *** Mutating member functions: state and exceptions *)

Definition M (A : Type) : Type := Server → outcome A * Server.

Definition ret {A} (a : A) : M A := λ s, (Returns a, s).
Definition throw {A} (e : exception) : M A := λ s, (Throws e, s).
Definition bind {A B} (c : M A) (k : A → M B) : M B :=
  λ s, match c s with
       | (Returns a, s') => k a s'
       | (Throws e, s') => (Throws e, s')
       end.
Definition get : M Server := λ s, (Returns s, s).
Definition modify (f : Server → Server) : M unit := λ s, (Returns tt, f s).
(** A call of a [const] member function. *)
Definition call {A} (c : Server → outcome A) : M A := λ s, (c s, s).

Notation "'let*' x ':=' c 'in' k" := (bind c (λ x, k))
  (at level 10, x pattern, c at level 100, k at level 200).
Notation "c ;;; k" := (bind c (λ _, k))
  (at level 100, k at level 200, right associativity).

(** A range-based [for] whose body may throw. *)
Fixpoint for_each {A} (xs : list A) (body : A → M unit) : M unit :=
  match xs with
  | [] => ret tt
  | x :: xs' => body x ;;; for_each xs' body
  end.

(** [std::for_each(execution::par, ...)]: the bodies run in the order [order]
    in which the workers happen to take them; an exception that leaves a
    body ends the program. *)
Definition for_each_par {A} (order : list A) (body : A → M unit) : M unit :=
  λ s, match for_each order body s with
       | (Returns _, s') => (Returns tt, s')
       | (Throws undefined_behaviour, s') => (Throws undefined_behaviour, s')
       | (Throws _, s') => (Throws terminate, s')
       end.

(** *** Field updates *)

Definition set_word_to_document_freqs
    (f : gmap string (gmap Z F) → gmap string (gmap Z F)) (s : Server) : Server :=
  {| stop_words_ := stop_words_ s;
     word_to_document_freqs_ := f (word_to_document_freqs_ s);
     document_to_word_freqs_ := document_to_word_freqs_ s;
     documents_ := documents_ s;
     document_ids_ := document_ids_ s |}.

Definition set_document_to_word_freqs
    (f : gmap Z (gmap string F) → gmap Z (gmap string F)) (s : Server) : Server :=
  {| stop_words_ := stop_words_ s;
     word_to_document_freqs_ := word_to_document_freqs_ s;
     document_to_word_freqs_ := f (document_to_word_freqs_ s);
     documents_ := documents_ s;
     document_ids_ := document_ids_ s |}.

Definition set_documents
    (f : gmap Z DocumentData → gmap Z DocumentData) (s : Server) : Server :=
  {| stop_words_ := stop_words_ s;
     word_to_document_freqs_ := word_to_document_freqs_ s;
     document_to_word_freqs_ := document_to_word_freqs_ s;
     documents_ := f (documents_ s);
     document_ids_ := document_ids_ s |}.

Definition set_document_ids (f : gset Z → gset Z) (s : Server) : Server :=
  {| stop_words_ := stop_words_ s;
     word_to_document_freqs_ := word_to_document_freqs_ s;
     document_to_word_freqs_ := document_to_word_freqs_ s;
     documents_ := documents_ s;
     document_ids_ := f (document_ids_ s) |}.

(** *** Construction *)

(** Modelled from the spec: the constructor from a container of stop words,
    a template of [search_server.h], which is absent from the sources; the
    stop words are the deduplicated non-empty strings of the container and
    the index starts empty. *)
Definition SearchServer_of_container (stop_words : list string) : Server :=
  {| stop_words_ := MakeUniqueNonEmptyStrings stop_words;
     word_to_document_freqs_ := ∅;
     document_to_word_freqs_ := ∅;
     documents_ := ∅;
     document_ids_ := ∅ |}.

Definition SearchServer_of_text (stop_words_text : string) : Server :=
  SearchServer_of_container (SplitIntoWords stop_words_text).

(** *** Words *)

Definition IsStopWord (s : Server) (word : string) : bool :=
  bool_decide (word ∈ stop_words_ s).

(** The value of a [char] as the comparison [c >= '\0' && c < ' '] sees it,
    [char] being a signed byte. *)
Definition char_value (c : ascii) : Z :=
  let n := Z.of_N (N_of_ascii c) in
  if (n <? 128)%Z then n else (n - 256)%Z.

Definition IsValidWord (word : string) : bool :=
  forallb (λ c, negb ((0 <=? char_value c)%Z && (char_value c <? 32)%Z))
          (list_ascii_of_string word).

Fixpoint SplitIntoWordsNoStop_loop (s : Server) (tokens words : list string)
  : outcome (list string) :=
  match tokens with
  | [] => Returns words
  | word :: tokens' =>
      if negb (IsValidWord word) then
        Throws (invalid_argument ("Word " +:+ word +:+ " is invalid"))
      else if negb (IsStopWord s word) then
        SplitIntoWordsNoStop_loop s tokens' (words ++ [word])
      else SplitIntoWordsNoStop_loop s tokens' words
  end.

Definition SplitIntoWordsNoStop (text : string) (s : Server)
  : outcome (list string) :=
  SplitIntoWordsNoStop_loop s (SplitIntoWords text) [].

(** The value an [int] computation leaves when its exact result is [z]:
    the result modulo 2^32, between -2^31 and 2^31 - 1. *)
Definition wrap_int (z : Z) : Z := ((z + 2 ^ 31) mod 2 ^ 32 - 2 ^ 31)%Z.

Definition ComputeAverageRating (ratings : list Z) : Z :=
  match ratings with
  | [] => 0%Z
  | _ =>
      let rating_sum := foldl (λ sum rating, wrap_int (sum + rating)) 0%Z ratings in
      Z.quot rating_sum (wrap_int (Z.of_nat (length ratings)))
  end.

(** *** AddDocument *)

(** [documents_.emplace(id, d)]: nothing is stored when the key is taken;
    the result is the element the returned iterator points at. *)
Definition emplace_document (document_id : Z) (d : DocumentData) : M DocumentData :=
  λ s, match documents_ s !! document_id with
       | Some d' => (Returns d', s)
       | None => (Returns d, set_documents (insert document_id d) s)
       end.

(** [m[k] += x], on a map whose [operator[]] inserts [0.0]. *)
Definition add_at `{Countable K} (k : K) (x : F) (m : gmap K F) : gmap K F :=
  <[k := f_add (default f_zero (m !! k)) x]> m.

(** [m[k1][k2] += x]. *)
Definition add_at2 `{Countable K1, Countable K2}
    (k1 : K1) (k2 : K2) (x : F) (m : gmap K1 (gmap K2 F)) : gmap K1 (gmap K2 F) :=
  <[k1 := add_at k2 x (default ∅ (m !! k1))]> m.

(** The body of the loop of [AddDocument]. *)
Definition index_word (document_id : Z) (inv_word_count : F) (word : string) : M unit :=
  modify (set_word_to_document_freqs (add_at2 word document_id inv_word_count)) ;;;
  modify (set_document_to_word_freqs (add_at2 document_id word inv_word_count)).

Definition AddDocument (document_id : Z) (document : string)
    (status : DocumentStatus) (ratings : list Z) : M unit :=
  let* s := get in
  if bool_decide (document_id < 0)%Z
     || bool_decide (is_Some (documents_ s !! document_id)) then
    throw (invalid_argument "Invalid document_id")
  else
    let* it := emplace_document document_id
                 {| rating := ComputeAverageRating ratings;
                    status := status;
                    text := document |} in
    let* words := call (SplitIntoWordsNoStop (text it)) in
    let inv_word_count := f_div f_one (f_of_size (length words)) in
    for_each words (index_word document_id inv_word_count) ;;;
    modify (set_document_ids (λ ids, {[ document_id ]} ∪ ids)).

(** *** Introspection *)

Definition GetDocumentCount (s : Server) : Z := Z.of_nat (size (documents_ s)).

(** The ids that [begin()] .. [end()] enumerate. *)
Definition DocumentIds (s : Server) : list Z := in_order (document_ids_ s).

Definition GetWordFrequencies (document_id : Z) (s : Server) : gmap string F :=
  match document_to_word_freqs_ s !! document_id with
  | None => ∅
  | Some freqs => freqs
  end.

(** *** Query parsing *)

Definition ParseQueryWord (word : string) (s : Server) : outcome QueryWord :=
  match word with
  | EmptyString => Throws (invalid_argument "Query word is empty")
  | String c0 _ =>
      let is_minus := Ascii.eqb c0 "-"%char in
      let word := if is_minus then remove_prefix 1 word else word in
      if match word with
         | EmptyString => true
         | String c _ => Ascii.eqb c "-"%char
         end
         || negb (IsValidWord word)
      then Throws (invalid_argument ("Query word " +:+ word +:+ " is invalid"))
      else Returns {| data := word; is_minus := is_minus; is_stop := IsStopWord s word |}
  end.

Fixpoint ParseQuery_loop (s : Server) (tokens : list string) (result : Query)
  : outcome Query :=
  match tokens with
  | [] => Returns result
  | word :: tokens' =>
      match ParseQueryWord word s with
      | Throws e => Throws e
      | Returns query_word =>
          if negb (is_stop query_word) then
            if is_minus query_word then
              ParseQuery_loop s tokens'
                {| plus_words := plus_words result;
                   minus_words := minus_words result ++ [data query_word] |}
            else
              ParseQuery_loop s tokens'
                {| plus_words := plus_words result ++ [data query_word];
                   minus_words := minus_words result |}
          else ParseQuery_loop s tokens' result
      end
  end.

Definition ParseQuery (text : string) (skip_sort : bool) (s : Server)
  : outcome Query :=
  match ParseQuery_loop s (SplitIntoWords text)
          {| plus_words := []; minus_words := [] |} with
  | Throws e => Throws e
  | Returns result =>
      if negb skip_sort then
        Returns {| plus_words := unique (sort (plus_words result));
                   minus_words := unique (sort (minus_words result)) |}
      else Returns result
  end.

(** Modelled from the spec: the default value of the parameter [skip_sort],
    declared in [search_server.h], which is absent from the sources; by
    section 4.2 the parser deduplicates unless a caller opts out. *)
Definition skip_sort_default : bool := false.

(** *** MatchDocument *)

(** The test both variants apply to a query word: the word has postings and
    one of them is for [document_id]. *)
Definition word_checker (s : Server) (document_id : Z) (word : string) : bool :=
  match word_to_document_freqs_ s !! word with
  | None => false
  | Some freqs => bool_decide (is_Some (freqs !! document_id))
  end.

(** The loop over the minus words: [true] when it leaves by [return]. *)
Fixpoint minus_loop (s : Server) (document_id : Z) (words : list string) : bool :=
  match words with
  | [] => false
  | word :: words' =>
      match word_to_document_freqs_ s !! word with
      | None => minus_loop s document_id words'
      | Some freqs =>
          if bool_decide (is_Some (freqs !! document_id)) then true
          else minus_loop s document_id words'
      end
  end.

(** The loop over the plus words. *)
Fixpoint plus_loop (s : Server) (document_id : Z) (words matched_words : list string)
  : list string :=
  match words with
  | [] => matched_words
  | word :: words' =>
      match word_to_document_freqs_ s !! word with
      | None => plus_loop s document_id words' matched_words
      | Some freqs =>
          if bool_decide (is_Some (freqs !! document_id))
          then plus_loop s document_id words' (matched_words ++ [word])
          else plus_loop s document_id words' matched_words
      end
  end.

(** [documents_.at(document_id)]. *)
Definition documents_at (document_id : Z) (s : Server) : outcome DocumentData :=
  match documents_ s !! document_id with
  | None => Throws out_of_range
  | Some d => Returns d
  end.

Definition MatchDocument_seq (raw_query : string) (document_id : Z) (s : Server)
  : outcome (list string * DocumentStatus) :=
  match ParseQuery raw_query skip_sort_default s with
  | Throws e => Throws e
  | Returns query =>
      match documents_at document_id s with
      | Throws e => Throws e
      | Returns d =>
          if minus_loop s document_id (minus_words query) then Returns ([], status d)
          else Returns (plus_loop s document_id (plus_words query) [], status d)
      end
  end.

Definition MatchDocument (raw_query : string) (document_id : Z) (s : Server)
  : outcome (list string * DocumentStatus) :=
  MatchDocument_seq raw_query document_id s.

(** [any_of] and [copy_if] under [execution::par] return what their
    sequential forms return; [copy_if] keeps the order of its input. *)
Definition MatchDocument_par (raw_query : string) (document_id : Z) (s : Server)
  : outcome (list string * DocumentStatus) :=
  match ParseQuery raw_query true s with
  | Throws e => Throws e
  | Returns query =>
      match documents_at document_id s with
      | Throws e => Throws e
      | Returns d =>
          if existsb (word_checker s document_id) (minus_words query)
          then Returns ([], status d)
          else
            let matched_words := filter (λ w, word_checker s document_id w = true)
                                        (plus_words query) in
            Returns (unique (sort matched_words), status d)
      end
  end.

(** *** RemoveDocument *)

(** [word_to_document_freqs_.at(word).erase(document_id)], where [word] is
    a key of [document_to_word_freqs_.at(document_id)]: a view into the text
    of [documents_.at(document_id)], of which [AddDocument] has made it.
    Unless the map is empty, [at] compares the bytes of [word] with those
    of a key; they can be read as long as [documents_] holds the text. *)
Definition erase_posting (document_id : Z) (word : string) : M unit :=
  λ s, if bool_decide (word_to_document_freqs_ s = ∅) then
         (Throws out_of_range, s)
       else
         match documents_ s !! document_id with
         | None => (Throws undefined_behaviour, s)
         | Some _ =>
             match word_to_document_freqs_ s !! word with
             | None => (Throws out_of_range, s)
             | Some freqs =>
                 (Returns tt,
                  set_word_to_document_freqs
                    (insert word (delete document_id freqs)) s)
             end
         end.

Definition RemoveDocument_seq (document_id : Z) : M unit :=
  let* s := get in
  match document_to_word_freqs_ s !! document_id with
  | None => ret tt
  | Some word_freqs =>
      modify (set_document_ids (λ ids, ids ∖ {[ document_id ]})) ;;;
      modify (set_documents (delete document_id)) ;;;
      for_each (entries_in_order word_freqs)
               (λ item, erase_posting document_id item.1) ;;;
      modify (set_document_to_word_freqs (delete document_id))
  end.

(** The words [transform] copies out of the posting map of a document. *)
Definition words_of (word_freqs : gmap string F) : list string :=
  (entries_in_order word_freqs).*1.

(** The parallel variant; [order] is the order in which the workers of
    [for_each] take the words, a rearrangement of [words_of]. *)
Definition RemoveDocument_par (order : list string) (document_id : Z) : M unit :=
  let* s := get in
  match document_to_word_freqs_ s !! document_id with
  | None => ret tt
  | Some word_freqs =>
      modify (set_document_ids (λ ids, ids ∖ {[ document_id ]})) ;;;
      modify (set_documents (delete document_id)) ;;;
      for_each_par order (erase_posting document_id) ;;;
      modify (set_document_to_word_freqs (delete document_id))
  end.

Definition RemoveDocument (document_id : Z) : M unit := RemoveDocument_seq document_id.

(** *** RemoveDuplicates (test_example_functions.cpp); the line it prints
    for each duplicate is not modelled. *)

(** The scanning loop: the sets of words seen so far, and the ids found to
    repeat one of them. *)
Fixpoint RemoveDuplicates_scan (s : Server) (ids : list Z)
    (existing_docs : gset (gset string)) (found_duplicates : list Z) : list Z :=
  match ids with
  | [] => found_duplicates
  | document_id :: ids' =>
      let freqs := GetWordFrequencies document_id s in
      let words : gset string := dom freqs in
      if bool_decide (words ∈ existing_docs) then
        RemoveDuplicates_scan s ids' existing_docs (found_duplicates ++ [document_id])
      else
        RemoveDuplicates_scan s ids' ({[ words ]} ∪ existing_docs) found_duplicates
  end.

Definition RemoveDuplicates : M unit :=
  let* s := get in
  let found_duplicates := RemoveDuplicates_scan s (DocumentIds s) ∅ [] in
  for_each found_duplicates RemoveDocument.

End Server.

Notation "'let*' x ':=' c 'in' k" := (bind c (λ x, k))
  (at level 10, x pattern, c at level 100, k at level 200).
Notation "c ;;; k" := (bind c (λ _, k))
  (at level 100, k at level 200, right associativity).

(** ** Notions the properties are stated with *)

Section Model.
Context {F : Type} `{!FreqArith F}.

(** The frequency a two-level map holds at a pair of keys. *)
Definition lookup2 `{Countable K1, Countable K2}
    (m : gmap K1 (gmap K2 F)) (k1 : K1) (k2 : K2) : option F :=
  m !! k1 ≫= (.!! k2).

(** The posting set of a term: the documents it occurs in, with the
    frequencies. A term without an entry has the empty posting set. *)
Definition postings (s : SearchServer F) (word : string) : gmap Z F :=
  default ∅ (word_to_document_freqs_ s !! word).

Definition has_posting (s : SearchServer F) (word : string) (document_id : Z) : Prop :=
  is_Some (lookup2 (word_to_document_freqs_ s) word document_id).

(** The two posting maps hold the same frequencies. *)
Definition mirrored (wtd : gmap string (gmap Z F)) (dtw : gmap Z (gmap string F)) : Prop :=
  ∀ w d, lookup2 wtd w d = lookup2 dtw d w.

(** What every state satisfies that a server reaches with defined
    behaviour. *)
Record consistent (s : SearchServer F) : Prop := {
  consistent_mirrored :
    mirrored (word_to_document_freqs_ s) (document_to_word_freqs_ s);
  consistent_fwd_ids :
    dom (document_to_word_freqs_ s) ⊆ document_ids_ s;
  consistent_ids_docs :
    document_ids_ s ⊆ dom (documents_ s);
  consistent_fwd_nonempty :
    ∀ d m, document_to_word_freqs_ s !! d = Some m → m ≠ ∅
}.

(** The states a server passes through as long as its behaviour is
    defined: it is constructed, and then documents are added (with or
    without success) and removed, by either variant of removal. A removal
    with undefined behaviour ends the run: the server has no state the
    language speaks of afterwards. *)
Inductive reachable : SearchServer F → Prop :=
  | reachable_new stop_words :
      reachable (SearchServer_of_container stop_words)
  | reachable_add s document_id document status ratings :
      reachable s →
      reachable (AddDocument document_id document status ratings s).2
  | reachable_remove s document_id :
      reachable s →
      (RemoveDocument_seq document_id s).1 = Returns tt →
      reachable (RemoveDocument_seq document_id s).2
  | reachable_remove_par s document_id order :
      reachable s →
      order ≡ₚ words_of (GetWordFrequencies document_id s) →
      (RemoveDocument_par order document_id s).1 = Returns tt →
      reachable (RemoveDocument_par order document_id s).2.

(** The state in which [RemoveDocument] reads the erased text: the id and the
    metadata of the document are gone, its postings are all there. *)
Definition half_removed (document_id : Z) (s : SearchServer F) : SearchServer F :=
  {| stop_words_ := stop_words_ s;
     word_to_document_freqs_ := word_to_document_freqs_ s;
     document_to_word_freqs_ := document_to_word_freqs_ s;
     documents_ := delete document_id (documents_ s);
     document_ids_ := document_ids_ s ∖ {[ document_id ]} |}.

(** The sum of the frequencies of a document. *)
Definition freq_sum (freqs : gmap string F) : F :=
  map_fold (λ _ f acc, f_add acc f) f_zero freqs.

(** A list of words in ascending order without repetition. *)
Definition sorted_unique (ws : list string) : Prop :=
  StronglySorted (strict String.le) ws.

End Model.

(** ** process_queries.cpp *)

Section ProcessQueries.
Context {F : Type} {Document : Type}.

(** [SearchServer::FindTopDocuments(raw_query)] forwards to a template of
    [search_server.h], which is not among the sources: the search is a
    parameter of the two functions built on it. *)
Variable FindTopDocuments : string → SearchServer F → outcome (list Document).

(** [std::transform(execution::par, ...)] into a vector of the size of the
    input: the results keep the places of their arguments; an exception
    that leaves the operation ends the program. *)
Fixpoint transform_par {A B} (op : A → outcome B) (xs : list A) : outcome (list B) :=
  match xs with
  | [] => Returns []
  | x :: xs' =>
      match op x, transform_par op xs' with
      | Returns y, Returns ys => Returns (y :: ys)
      | _, _ => Throws terminate
      end
  end.

Definition ProcessQueries (queries : list string) (s : SearchServer F)
  : outcome (list (list Document)) :=
  transform_par (λ query, FindTopDocuments query s) queries.

Definition ProcessQueriesJoined (queries : list string) (s : SearchServer F)
  : outcome (list Document) :=
  match ProcessQueries queries s with
  | Throws e => Throws e
  | Returns documents_lists =>
      Returns (foldl (λ documents local_documents, documents ++ local_documents)
                     [] documents_lists)
  end.

End ProcessQueries.

(** ** Further notions *)

(** How often a word occurs in a list of words. *)
Definition occurrences (w : string) (words : list string) : nat :=
  length (filter (λ w', w' = w) words).

(** A word the query parser accepts once a leading minus is taken off: not
    empty, not beginning with a minus, free of control characters. *)
Definition query_word_ok (w : string) : Prop :=
  w ≠ "" ∧ (∀ rest, w ≠ String "-"%char rest) ∧ IsValidWord w = true.

(** The values of [int]. *)
Definition fits_int (z : Z) : Prop := (- 2 ^ 31 ≤ z < 2 ^ 31)%Z.

(** ** Binary64 frequencies read as rationals *)

(** The rational a binary64 number stands for (zero for what is not
    finite). *)
Definition SF2Q (f : spec_float) : Q :=
  match f with
  | S754_finite s m e =>
      ((if s then -1 else 1) * inject_Z (Z.pos m) * Qpower 2 e)%Q
  | _ => 0%Q
  end.

Definition is_positive_finite (f : spec_float) : bool :=
  match f with
  | S754_finite false _ _ => true
  | _ => false
  end.

(** The sum of the frequencies of a document, taken exactly. *)
Definition exact_sum (freqs : gmap string spec_float) : Q :=
  foldr (λ item acc, SF2Q item.2 + acc)%Q 0%Q (map_to_list freqs).

(** The tolerance of the comparisons, 2^-40. *)
Definition tolerance : Q := 1 # 1099511627776.

(** The share [k / n] of [k] occurrences among [n] words. *)
Definition share (k n : nat) : Q := Z.of_nat k # Pos.of_nat n.

(** [f] is a positive finite number [m * 2^-p] with [40 <= p], and [k / n]
    up to a relative error of [tolerance]: the two comparisons
    [k / n * (1 - 2^-40) <= m * 2^-p <= k / n * (1 + 2^-40)], multiplied by
    [n * 2^p]. *)
Definition close_to_share (f : spec_float) (k n : Z) : bool :=
  match f with
  | S754_finite false m (Z.neg p) =>
      let shift := (Z.pos p - 40)%Z in
      let scaled := (n * Z.pos m)%Z in
      (0 <=? shift)%Z &&
      (Z.shiftl (k * 1099511627775) shift <=? scaled)%Z &&
      (scaled <=? Z.shiftl (k * 1099511627777) shift)%Z
  | _ => false
  end.

(** The frequencies [AddDocument] can store for a document of [n] indexed
    words are the results of adding [x = 1.0 / n] to [0.0] once, twice, ...,
    [n] times. [check_sums] goes through [steps] more of these additions,
    [k] of them being done with the result [acc], and compares each result
    with its share. *)
Fixpoint check_sums (x : spec_float) (n k : Z) (acc : spec_float) (steps : nat)
  : bool :=
  match steps with
  | O => true
  | S steps' =>
      let acc' := f_add acc x in
      close_to_share acc' (Z.succ k) n && check_sums x n (Z.succ k) acc' steps'
  end.

Definition check_length (n : nat) : bool :=
  check_sums (f_div f_one (f_of_size n)) (Z.of_nat n) 0 f_zero n.

Definition check_lengths (N : nat) : bool := forallb check_length (seq 1 N).

(** The number of indexed words up to which the frequencies are checked. *)
Definition max_words : nat := 500.

(** ** Sample servers and texts *)

Module Samples.

(** A server without stop words and a server with the stop word [the],
    both with binary64 frequencies. *)
Definition plain_server : SearchServer spec_float := SearchServer_of_text "".
Definition the_server : SearchServer spec_float := SearchServer_of_text "the".

(** A text whose only token holds the control character 0x01. *)
Definition control_text : string := String "a"%char (String "001"%char "b").

(** [the_server] after a document of stop words only. *)
Definition the_server_1 : SearchServer spec_float :=
  (AddDocument 1 "the" ACTIVE [] the_server).2.

(** ... and after a second such document. *)
Definition the_server_2 : SearchServer spec_float :=
  (AddDocument 2 "the" ACTIVE [] the_server_1).2.

(** [the_server_1] after a document that repeats one word nine times. *)
Definition nine_server : SearchServer spec_float :=
  (AddDocument 2 "a a a a a a a a a" ACTIVE [] the_server_1).2.

(** A server with one document of three words, two of them equal. *)
Definition aba_server : SearchServer spec_float :=
  (AddDocument 3 "a b a" ACTIVE [5; 4]%Z plain_server).2.


End Samples.

(** ** Further sample servers *)

Module MoreSamples.


End MoreSamples.

(** * Properties *)

(** ** The tokenizer *)

Section Tokenizer.

Lemma find_None_segments str :
  find " "%char str = None → segments str = [str].
Proof.
  induction str as [|c str IH]; simpl; [done|].
  destruct (Ascii.eqb c " "%char); [done|].
  destruct (find " "%char str); [done|].
  intros _. by rewrite IH.
Qed.

Lemma find_Some_segments str i :
  find " "%char str = Some i →
  segments str = substring 0 i str :: segments (remove_prefix (i + 1) str).
Proof.
  revert i. induction str as [|c str IH]; intros i; simpl; [done|].
  destruct (Ascii.eqb c " "%char) eqn:Hc.
  - intros [= <-]. simpl. done.
  - destruct (find " "%char str) as [j|] eqn:Hj; [|done].
    intros [= <-]. simpl. by rewrite (IH j).
Qed.

Lemma find_Some_lt str i : find " "%char str = Some i → i < String.length str.
Proof.
  revert i. induction str as [|c str IH]; intros i; simpl; [done|].
  destruct (Ascii.eqb c " "%char).
  - intros [= <-]. lia.
  - destruct (find " "%char str) as [j|]; [|done].
    intros [= <-]. specialize (IH j eq_refl). lia.
Qed.

Lemma length_remove_prefix n str :
  String.length (remove_prefix n str) = String.length str - n.
Proof.
  revert str. induction n as [|n IH]; intros [|c str]; simpl; auto with lia.
Qed.

(** With fuel beyond the length of the text the loop reaches its [break],
    and what it has appended by then are the segments of the text. *)
Lemma SplitIntoWords_loop_segments fuel str result :
  String.length str < fuel →
  SplitIntoWords_loop fuel str result = result ++ segments str.
Proof.
  revert str result. induction fuel as [|fuel IH]; intros str result Hlen; [lia|].
  simpl. destruct (find " "%char str) as [i|] eqn:Hfind.
  - rewrite IH.
    + rewrite (find_Some_segments _ _ Hfind). simpl. by rewrite <-app_assoc.
    + rewrite length_remove_prefix. apply find_Some_lt in Hfind. lia.
  - by rewrite (find_None_segments _ Hfind).
Qed.

Lemma SplitIntoWords_segments str : SplitIntoWords str = segments str.
Proof. unfold SplitIntoWords. by rewrite SplitIntoWords_loop_segments by lia. Qed.

(** The loop written as the recursion it performs. *)
Lemma SplitIntoWords_unfold str :
  SplitIntoWords str =
    match find " "%char str with
    | None => [str]
    | Some i => substring 0 i str :: SplitIntoWords (remove_prefix (i + 1) str)
    end.
Proof.
  rewrite !SplitIntoWords_segments.
  destruct (find " "%char str) as [i|] eqn:Hfind.
  - rewrite SplitIntoWords_segments. by apply find_Some_segments.
  - by apply find_None_segments.
Qed.

Lemma segments_nonempty str : segments str ≠ [].
Proof.
  destruct str as [|c str]; simpl; [done|].
  destruct (Ascii.eqb c " "%char); [done|]. by destruct (segments str).
Qed.

Lemma segments_no_space str :
  Forall (λ w, find " "%char w = None) (segments str).
Proof.
  induction str as [|c str IH]; simpl.
  - by constructor.
  - destruct (Ascii.eqb c " "%char) eqn:Hc.
    + by constructor.
    + destruct (segments str) as [|w ws].
      * constructor; [|done]. simpl. by rewrite Hc.
      * inversion IH as [|? ? Hw Hws]; subst. constructor; [|done].
        simpl. by rewrite Hc, Hw.
Qed.

Lemma join_spaces_cons w ws :
  ws ≠ [] → join_spaces (w :: ws) = w +:+ String " "%char (join_spaces ws).
Proof. by destruct ws. Qed.

Lemma join_spaces_segments str : join_spaces (segments str) = str.
Proof.
  induction str as [|c str IH]; simpl; [done|].
  destruct (Ascii.eqb c " "%char) eqn:Hc.
  - apply Ascii.eqb_eq in Hc as ->.
    rewrite join_spaces_cons by apply segments_nonempty. simpl. by rewrite IH.
  - destruct (segments str) as [|w [|w' ws]] eqn:Hseg.
    + by destruct (segments_nonempty str).
    + simpl in *. by rewrite IH.
    + change (join_spaces (String c w :: w' :: ws))
        with (String c (join_spaces (w :: w' :: ws))).
      by rewrite IH.
Qed.

Lemma segments_app_space w str :
  find " "%char w = None →
  segments (w +:+ String " "%char str) = w :: segments str.
Proof.
  induction w as [|c w IH]; simpl; [done|].
  destruct (Ascii.eqb c " "%char); [done|].
  destruct (find " "%char w); [done|]. intros _.
  change (String.append w (String " "%char str)) with (w +:+ String " "%char str).
  by rewrite IH.
Qed.

Lemma segments_join_spaces ws :
  ws ≠ [] → Forall (λ w, find " "%char w = None) ws →
  segments (join_spaces ws) = ws.
Proof.
  induction ws as [|w ws IH]; [done|]. intros _ Hall.
  inversion Hall as [|? ? Hw Hws]; subst.
  destruct ws as [|w' ws].
  - simpl. by apply find_None_segments.
  - rewrite join_spaces_cons by done. rewrite segments_app_space by done.
    by rewrite IH.
Qed.

End Tokenizer.

(** ** Words and validation *)

Section Words.
Context {F : Type} `{!FreqArith F}.
Implicit Types s : SearchServer F.

(** A character fails the test of [IsValidWord] exactly when its byte is
    below 0x20. *)
Lemma char_value_control c :
  (0 <=? char_value c)%Z && (char_value c <? 32)%Z = (N_of_ascii c <? 32)%N.
Proof.
  unfold char_value. pose proof (N_ascii_bounded c) as Hb.
  destruct (N.ltb_spec (N_of_ascii c) 32);
    destruct (Z.ltb_spec (Z.of_N (N_of_ascii c)) 128);
    destruct (Z.leb_spec 0 (Z.of_N (N_of_ascii c)));
    destruct (Z.leb_spec 0 (Z.of_N (N_of_ascii c) - 256));
    destruct (Z.ltb_spec (Z.of_N (N_of_ascii c)) 32);
    destruct (Z.ltb_spec (Z.of_N (N_of_ascii c) - 256) 32); simpl; lia.
Qed.

Lemma IsValidWord_false word :
  IsValidWord word = false ↔
  ∃ c, c ∈ list_ascii_of_string word ∧ (N_of_ascii c < 32)%N.
Proof.
  unfold IsValidWord. induction (list_ascii_of_string word) as [|c cs IH]; simpl.
  - split; [done|]. intros (c & Hc & _). by apply elem_of_nil in Hc.
  - rewrite char_value_control, andb_false_iff, IH, negb_false_iff, N.ltb_lt.
    split.
    + intros [Hc|(c' & Hin & Hc')].
      * exists c. split; [left|done].
      * exists c'. split; [by right|done].
    + intros (c' & [->|Hin]%elem_of_cons & Hc'); [by left|].
      right. by exists c'.
Qed.

(** The filtering loop stops at the first invalid token, and otherwise
    keeps the tokens that are not stop words. *)
Lemma SplitIntoWordsNoStop_loop_valid s tokens words :
  Forall (λ w, IsValidWord w = true) tokens →
  SplitIntoWordsNoStop_loop s tokens words =
    Returns (words ++ filter (λ w, w ∉ stop_words_ s) tokens).
Proof.
  revert words. induction tokens as [|w tokens IH]; intros words Hall; simpl.
  - by rewrite app_nil_r.
  - inversion Hall as [|? ? Hw Htokens]; subst. rewrite Hw. simpl.
    unfold IsStopWord. rewrite filter_cons. case_bool_decide; simpl.
    + rewrite decide_False by tauto. by apply IH.
    + rewrite decide_True by done. rewrite IH by done.
      by rewrite <-app_assoc.
Qed.

Lemma SplitIntoWordsNoStop_loop_invalid s tokens words :
  Exists (λ w, IsValidWord w = false) tokens →
  ∃ w, w ∈ tokens ∧ IsValidWord w = false ∧
       SplitIntoWordsNoStop_loop s tokens words =
         Throws (invalid_argument ("Word " +:+ w +:+ " is invalid")).
Proof.
  revert words. induction tokens as [|w tokens IH]; intros words Hex.
  - by apply Exists_nil in Hex.
  - simpl. destruct (IsValidWord w) eqn:Hw; simpl.
    + apply Exists_cons in Hex as [Hex|Hex]; [congruence|].
      destruct (IsStopWord s w); simpl.
      * destruct (IH words Hex) as (w' & ? & ? & ?).
        exists w'. split_and!; [by right|done..].
      * destruct (IH (words ++ [w]) Hex) as (w' & ? & ? & ?).
        exists w'. split_and!; [by right|done..].
    + exists w. split_and!; [by left|done..].
Qed.

Lemma SplitIntoWordsNoStop_Returns s text words :
  SplitIntoWordsNoStop text s = Returns words →
  words = filter (λ w, w ∉ stop_words_ s) (SplitIntoWords text).
Proof.
  unfold SplitIntoWordsNoStop. intros Hret.
  destruct (decide (Forall (λ w, IsValidWord w = true) (SplitIntoWords text)))
    as [Hall|Hex].
  - rewrite SplitIntoWordsNoStop_loop_valid in Hret by done. by injection Hret.
  - apply not_Forall_Exists in Hex; [|intros w; apply _].
    assert (Exists (λ w, IsValidWord w = false) (SplitIntoWords text)) as Hex'.
    { eapply Exists_impl; [exact Hex|]. intros w Hw. by apply not_true_is_false. }
    clear Hex. rename Hex' into Hex.
    destruct (SplitIntoWordsNoStop_loop_invalid s _ [] Hex) as (w & _ & _ & Hthrow).
    congruence.
Qed.

(** The words found do not depend on anything but the stop words. *)
Lemma SplitIntoWordsNoStop_stop_words s s' text :
  stop_words_ s' = stop_words_ s →
  SplitIntoWordsNoStop text s' = SplitIntoWordsNoStop text s.
Proof.
  intros Hstop. unfold SplitIntoWordsNoStop.
  generalize (@nil string). induction (SplitIntoWords text) as [|w tokens IH];
    intros words; simpl; [done|].
  unfold IsStopWord. rewrite Hstop. by rewrite !IH.
Qed.

End Words.

(** ** Two-level maps *)

Section TwoLevel.
Context {F : Type} `{!FreqArith F}.
Context `{Countable K1, Countable K2}.
Implicit Types m : gmap K1 (gmap K2 F).

Lemma lookup2_add_at2 m k1 k2 x a b :
  lookup2 (add_at2 k1 k2 x m) a b =
    if decide (a = k1 ∧ b = k2)
    then Some (f_add (default f_zero (lookup2 m k1 k2)) x)
    else lookup2 m a b.
Proof.
  unfold lookup2, add_at2, add_at.
  destruct (decide (a = k1)) as [->|Ha].
  - rewrite lookup_insert_eq. simpl.
    destruct (decide (b = k2)) as [->|Hb].
    + rewrite lookup_insert_eq, decide_True by done.
      by destruct (m !! k1).
    + rewrite lookup_insert_ne, decide_False by (done || tauto).
      by destruct (m !! k1).
  - rewrite lookup_insert_ne, decide_False by (done || tauto). done.
Qed.

Lemma lookup2_Some_outer m a b f : lookup2 m a b = Some f → is_Some (m !! a).
Proof. unfold lookup2. destruct (m !! a); [eauto|done]. Qed.

End TwoLevel.

(** ** The state after each operation *)

Section Operations.
Context {F : Type} `{!FreqArith F}.
Implicit Types s : SearchServer F.

Lemma for_each_total {A} (xs : list A) (body : A → M unit)
    (step : A → SearchServer F → SearchServer F) s :
  (∀ x s', body x s' = (Returns tt, step x s')) →
  for_each xs body s = (Returns tt, foldl (λ s' x, step x s') s xs).
Proof.
  intros Hbody. revert s. induction xs as [|x xs IH]; intros s; [done|].
  simpl. unfold bind. by rewrite Hbody, IH.
Qed.

Lemma for_each_fmap {A B} (f : A → B) (xs : list A) (body : B → M unit) s :
  for_each (f <$> xs) body s = for_each xs (λ x, body (f x)) s.
Proof.
  revert s. induction xs as [|x xs IH]; intros s; [done|].
  simpl. unfold bind. destruct (body (f x) s) as [[[]|e] s']; [apply IH|done].
Qed.

(** The loop of [AddDocument] never throws; it leaves the stop words, the
    documents and the ids alone and adds to the two posting maps in step. *)
Lemma index_words_run document_id x words s :
  for_each words (index_word document_id x) s =
    (Returns tt,
     {| stop_words_ := stop_words_ s;
        word_to_document_freqs_ :=
          foldl (λ m w, add_at2 w document_id x m) (word_to_document_freqs_ s) words;
        document_to_word_freqs_ :=
          foldl (λ m w, add_at2 document_id w x m) (document_to_word_freqs_ s) words;
        documents_ := documents_ s;
        document_ids_ := document_ids_ s |}).
Proof.
  revert s. induction words as [|w words IH]; intros s.
  - by destruct s.
  - simpl. unfold bind at 1. unfold index_word at 1, bind, modify.
    by rewrite IH.
Qed.

Lemma mirrored_index_words id x words
    (wtd : gmap string (gmap Z F)) (dtw : gmap Z (gmap string F)) :
  mirrored wtd dtw →
  mirrored (foldl (λ m w, add_at2 w id x m) wtd words)
           (foldl (λ m w, add_at2 id w x m) dtw words).
Proof.
  revert wtd dtw. induction words as [|w words IH]; intros wtd dtw Hm; [done|].
  simpl. apply IH. intros a b. rewrite !lookup2_add_at2.
  destruct (decide (a = w ∧ b = id)) as [[-> ->]|Hne].
  - rewrite decide_True by done. by rewrite Hm.
  - rewrite decide_False by (done || tauto). apply Hm.
Qed.

Lemma fwd_index_words_ne id x words (dtw : gmap Z (gmap string F)) d :
  d ≠ id → foldl (λ m w, add_at2 id w x m) dtw words !! d = dtw !! d.
Proof.
  intros Hd. revert dtw. induction words as [|w words IH]; intros dtw; [done|].
  simpl. rewrite IH. unfold add_at2. by rewrite lookup_insert_ne.
Qed.

Lemma fwd_index_words_eq id x words (dtw : gmap Z (gmap string F)) :
  words ≠ [] →
  foldl (λ m w, add_at2 id w x m) dtw words !! id =
    Some (foldl (λ m w, add_at w x m) (default ∅ (dtw !! id)) words).
Proof.
  revert dtw. induction words as [|w words IH]; intros dtw Hne; [done|].
  simpl. destruct words as [|w' words].
  - simpl. unfold add_at2. by rewrite lookup_insert_eq.
  - rewrite IH by done. f_equal. unfold add_at2. by rewrite lookup_insert_eq.
Qed.

Lemma fwd_index_words_nonempty id x words (dtw : gmap Z (gmap string F)) :
  (∀ d m, dtw !! d = Some m → m ≠ ∅) →
  ∀ d m, foldl (λ m w, add_at2 id w x m) dtw words !! d = Some m → m ≠ ∅.
Proof.
  revert dtw. induction words as [|w words IH]; intros dtw Hne; [done|].
  simpl. apply IH. intros d m. unfold add_at2, add_at.
  destruct (decide (d = id)) as [->|Hd].
  - rewrite lookup_insert_eq. intros [= <-]. apply insert_non_empty.
  - rewrite lookup_insert_ne by done. apply Hne.
Qed.

Lemma fwd_index_words_dom id x words (dtw : gmap Z (gmap string F)) :
  dom (foldl (λ m w, add_at2 id w x m) dtw words) ⊆ {[ id ]} ∪ dom dtw.
Proof.
  intros d Hd. apply elem_of_dom in Hd.
  destruct (decide (d = id)) as [->|Hne]; [set_solver|].
  rewrite fwd_index_words_ne in Hd by done. apply elem_of_dom in Hd. set_solver.
Qed.

Lemma rev_index_words_dom id x words (wtd : gmap string (gmap Z F)) :
  dom (foldl (λ m w, add_at2 w id x m) wtd words) = list_to_set words ∪ dom wtd.
Proof.
  revert wtd. induction words as [|w words IH]; intros wtd; simpl.
  - set_solver.
  - rewrite IH. unfold add_at2. rewrite dom_insert_L. set_solver.
Qed.

End Operations.

(** ** AddDocument *)

Section AddDocument.
Context {F : Type} `{!FreqArith F}.
Implicit Types s : SearchServer F.

(** The guard on the id throws before anything is stored. *)
Lemma AddDocument_invalid_id s document_id document status ratings :
  (document_id < 0)%Z ∨ is_Some (documents_ s !! document_id) →
  AddDocument document_id document status ratings s =
    (Throws (invalid_argument "Invalid document_id"), s).
Proof.
  intros Hid. unfold AddDocument, bind, get.
  destruct Hid as [Hneg|Hdup].
  - by rewrite bool_decide_eq_true_2.
  - rewrite (bool_decide_eq_true_2 (is_Some _)) by done.
    by rewrite orb_true_r.
Qed.

(** On a fresh, non-negative id the metadata is stored first; the words
    are validated after that. *)
Lemma AddDocument_fresh s document_id document status ratings :
  (0 ≤ document_id)%Z → documents_ s !! document_id = None →
  AddDocument document_id document status ratings s =
    let d := {| rating := ComputeAverageRating ratings;
                status := status; text := document |} in
    match SplitIntoWordsNoStop document s with
    | Throws e => (Throws e, set_documents (insert document_id d) s)
    | Returns words =>
        let x := f_div f_one (f_of_size (length words)) in
        (Returns tt,
         {| stop_words_ := stop_words_ s;
            word_to_document_freqs_ :=
              foldl (λ m w, add_at2 w document_id x m)
                    (word_to_document_freqs_ s) words;
            document_to_word_freqs_ :=
              foldl (λ m w, add_at2 document_id w x m)
                    (document_to_word_freqs_ s) words;
            documents_ := <[document_id := d]> (documents_ s);
            document_ids_ := {[ document_id ]} ∪ document_ids_ s |})
    end.
Proof.
  intros Hid Hfresh. unfold AddDocument, bind at 1, get.
  rewrite bool_decide_eq_false_2 by lia.
  rewrite bool_decide_eq_false_2 by (rewrite Hfresh; by intros [? ?]).
  simpl. unfold bind at 1, emplace_document. rewrite Hfresh.
  unfold bind at 1, call. simpl.
  rewrite (SplitIntoWordsNoStop_stop_words s) by done.
  destruct (SplitIntoWordsNoStop document s) as [words|e]; [|done].
  unfold bind. by rewrite index_words_run.
Qed.

Lemma AddDocument_consistent s document_id document status ratings :
  consistent s →
  consistent (AddDocument document_id document status ratings s).2.
Proof.
  intros [Hm Hfwd Hids Hne].
  destruct (decide ((document_id < 0)%Z ∨ is_Some (documents_ s !! document_id)))
    as [Hbad|Hok].
  { by rewrite AddDocument_invalid_id. }
  rewrite AddDocument_fresh;
    [|lia|destruct (documents_ s !! document_id) eqn:E; [destruct Hok; eauto|done]].
  simpl. destruct (SplitIntoWordsNoStop document s) as [words|e]; simpl.
  - split; simpl.
    + by apply mirrored_index_words.
    + etrans; [apply fwd_index_words_dom|]. set_solver.
    + rewrite dom_insert_L. set_solver.
    + by apply fwd_index_words_nonempty.
  - split; simpl; [done..| |done]. rewrite dom_insert_L. set_solver.
Qed.

End AddDocument.

(** ** RemoveDocument *)

Section RemoveDocument.
Context {F : Type} `{!FreqArith F}.
Implicit Types s : SearchServer F.
Implicit Types wtd : gmap string (gmap Z F).

Lemma elem_of_words_of (word_freqs : gmap string F) w :
  w ∈ words_of word_freqs ↔ is_Some (word_freqs !! w).
Proof.
  unfold words_of, entries_in_order. rewrite list_elem_of_fmap. split.
  - intros ([w' f] & -> & Hin). rewrite merge_sort_Permutation in Hin.
    apply elem_of_map_to_list in Hin. eauto.
  - intros [f Hf]. exists (w, f). split; [done|].
    rewrite merge_sort_Permutation. by apply elem_of_map_to_list.
Qed.

Lemma words_of_nonempty (word_freqs : gmap string F) :
  word_freqs ≠ ∅ → words_of word_freqs ≠ [].
Proof.
  intros Hne Hnil. apply Hne, map_empty. intros w.
  apply eq_None_not_Some. rewrite <-elem_of_words_of, Hnil.
  apply not_elem_of_nil.
Qed.

Lemma mirrored_words_present s document_id word_freqs w :
  mirrored (word_to_document_freqs_ s) (document_to_word_freqs_ s) →
  document_to_word_freqs_ s !! document_id = Some word_freqs →
  is_Some (word_freqs !! w) →
  is_Some (word_to_document_freqs_ s !! w).
Proof.
  intros Hm Hd [f Hf]. apply (lookup2_Some_outer _ _ document_id f).
  rewrite Hm. unfold lookup2. by rewrite Hd.
Qed.

(** A document with postings has a word, and the reverse map an entry. *)
Lemma consistent_present s document_id word_freqs :
  consistent s →
  document_to_word_freqs_ s !! document_id = Some word_freqs →
  word_freqs ≠ ∅ ∧ word_to_document_freqs_ s ≠ ∅.
Proof.
  intros Hs Hd. pose proof (consistent_fwd_nonempty s Hs _ _ Hd) as Hne.
  split; [done|]. intros Hempty.
  destruct (words_of word_freqs) as [|w ws] eqn:Hws;
    [by apply words_of_nonempty in Hne|].
  assert (w ∈ words_of word_freqs) as Hw by (rewrite Hws; left).
  apply elem_of_words_of in Hw.
  destruct (mirrored_words_present s document_id word_freqs w) as [freqs Hf];
    [apply Hs|done|done|].
  by rewrite Hempty, lookup_empty in Hf.
Qed.

(** The lookup of a word of a document whose text is erased. *)
Lemma erase_posting_erased document_id word s :
  word_to_document_freqs_ s ≠ ∅ →
  documents_ s !! document_id = None →
  erase_posting document_id word s = (Throws undefined_behaviour, s).
Proof.
  intros Hne Hd. unfold erase_posting.
  rewrite bool_decide_eq_false_2 by done. by rewrite Hd.
Qed.

Lemma for_each_erase_posting_erased document_id (ws : list string) s :
  ws ≠ [] →
  word_to_document_freqs_ s ≠ ∅ →
  documents_ s !! document_id = None →
  for_each ws (erase_posting document_id) s = (Throws undefined_behaviour, s).
Proof.
  intros Hws Hne Hd. destruct ws as [|w ws]; [done|].
  simpl. unfold bind. by rewrite erase_posting_erased.
Qed.

Lemma RemoveDocument_seq_absent s document_id :
  document_to_word_freqs_ s !! document_id = None →
  RemoveDocument_seq document_id s = (Returns tt, s).
Proof. intros Hd. unfold RemoveDocument_seq, bind, get. by rewrite Hd. Qed.

Lemma RemoveDocument_par_absent s order document_id :
  document_to_word_freqs_ s !! document_id = None →
  RemoveDocument_par order document_id s = (Returns tt, s).
Proof. intros Hd. unfold RemoveDocument_par, bind, get. by rewrite Hd. Qed.

(** The state after the two [erase] calls that precede the loop. *)
Lemma half_removed_eq s document_id :
  set_documents (delete document_id)
    (set_document_ids (λ ids, ids ∖ {[ document_id ]}) s) =
  half_removed document_id s.
Proof. done. Qed.

(** The removal of a document with postings reads its erased text at the
    first word. *)
Lemma RemoveDocument_seq_present s document_id word_freqs :
  document_to_word_freqs_ s !! document_id = Some word_freqs →
  word_freqs ≠ ∅ →
  word_to_document_freqs_ s ≠ ∅ →
  RemoveDocument_seq document_id s =
    (Throws undefined_behaviour, half_removed document_id s).
Proof.
  intros Hd Hne Hwtd. unfold RemoveDocument_seq, bind at 1, get. rewrite Hd.
  unfold bind at 1, modify at 1. unfold bind at 1, modify at 1.
  unfold bind at 1. rewrite half_removed_eq.
  rewrite <-(for_each_fmap fst (entries_in_order word_freqs)).
  fold (words_of word_freqs).
  rewrite for_each_erase_posting_erased; [done| |done|].
  - by apply words_of_nonempty.
  - simpl. apply lookup_delete_eq.
Qed.

Lemma RemoveDocument_par_present s order document_id word_freqs :
  document_to_word_freqs_ s !! document_id = Some word_freqs →
  order ≠ [] →
  word_to_document_freqs_ s ≠ ∅ →
  RemoveDocument_par order document_id s =
    (Throws undefined_behaviour, half_removed document_id s).
Proof.
  intros Hd Hne Hwtd. unfold RemoveDocument_par, bind at 1, get. rewrite Hd.
  unfold bind at 1, modify at 1. unfold bind at 1, modify at 1.
  unfold bind at 1, for_each_par. rewrite half_removed_eq.
  rewrite for_each_erase_posting_erased; [done|done|done|].
  simpl. apply lookup_delete_eq.
Qed.

(** A removal that returns has found no postings and has changed nothing. *)
Lemma RemoveDocument_seq_Returns s document_id :
  consistent s →
  (RemoveDocument_seq document_id s).1 = Returns tt →
  document_to_word_freqs_ s !! document_id = None ∧
  RemoveDocument_seq document_id s = (Returns tt, s).
Proof.
  intros Hs Hret.
  destruct (document_to_word_freqs_ s !! document_id) as [word_freqs|] eqn:Hd.
  - destruct (consistent_present s document_id word_freqs) as [Hne Hwtd];
      [done..|].
    by rewrite (RemoveDocument_seq_present s document_id word_freqs) in Hret.
  - split; [done|]. by apply RemoveDocument_seq_absent.
Qed.

Lemma RemoveDocument_par_Returns s order document_id :
  consistent s →
  order ≡ₚ words_of (GetWordFrequencies document_id s) →
  (RemoveDocument_par order document_id s).1 = Returns tt →
  document_to_word_freqs_ s !! document_id = None ∧
  RemoveDocument_par order document_id s = (Returns tt, s).
Proof.
  intros Hs Horder Hret.
  destruct (document_to_word_freqs_ s !! document_id) as [word_freqs|] eqn:Hd.
  - destruct (consistent_present s document_id word_freqs) as [Hne Hwtd];
      [done..|].
    unfold GetWordFrequencies in Horder. rewrite Hd in Horder.
    rewrite (RemoveDocument_par_present s order document_id word_freqs)
      in Hret; [done..| |done].
    intros ->. apply Permutation_nil_l in Horder.
    by apply words_of_nonempty in Hne.
  - split; [done|]. by apply RemoveDocument_par_absent.
Qed.

End RemoveDocument.

(** ** Sorting and deduplication *)

Section SortUnique.

Lemma elem_of_unique_from x ws w :
  w ∈ unique_from x ws ↔ w = x ∨ w ∈ ws.
Proof.
  revert x. induction ws as [|y ws IH]; intros x; simpl.
  - rewrite list_elem_of_singleton. set_solver.
  - destruct (decide (x = y)) as [->|Hne].
    + rewrite IH. set_solver.
    + rewrite elem_of_cons, IH. set_solver.
Qed.

Lemma elem_of_unique ws w : w ∈ unique ws ↔ w ∈ ws.
Proof.
  destruct ws as [|x ws]; simpl; [done|].
  rewrite elem_of_unique_from. set_solver.
Qed.

Lemma sorted_unique_from x ws :
  StronglySorted String.le (x :: ws) → sorted_unique (unique_from x ws).
Proof.
  unfold sorted_unique. revert x. induction ws as [|y ws IH]; intros x Hs; simpl.
  - repeat constructor.
  - apply StronglySorted_cons in Hs as [Hx Hs].
    destruct (decide (x = y)) as [->|Hne]; [by apply IH|].
    constructor; [by apply IH|].
    apply Forall_forall. intros w Hw%elem_of_unique_from.
    apply Forall_cons in Hx as [Hxy Hx].
    apply StronglySorted_cons in Hs as [Hy _].
    rewrite Forall_forall in Hx, Hy.
    assert (String.le y w) as Hyw by (destruct Hw as [->|Hw]; [done|by apply Hy]).
    split; [by etrans|]. intros Hwx. apply Hne.
    apply (anti_symm String.le); [done|]. by etrans.
Qed.

Lemma sorted_unique_sort ws : sorted_unique (unique (sort ws)).
Proof.
  unfold sort. pose proof (StronglySorted_merge_sort String.le ws) as Hs.
  destruct (merge_sort String.le ws) as [|x ws']; simpl.
  - constructor.
  - by apply sorted_unique_from.
Qed.

Lemma elem_of_unique_sort ws w : w ∈ unique (sort ws) ↔ w ∈ ws.
Proof. rewrite elem_of_unique. unfold sort. by rewrite merge_sort_Permutation. Qed.

Lemma sorted_unique_NoDup ws : sorted_unique ws → NoDup ws.
Proof.
  unfold sorted_unique. induction 1 as [|x ws Hs IH Hx]; constructor; [|done].
  intros Hin. rewrite Forall_forall in Hx. by destruct (Hx x Hin).
Qed.

(** A set of words has one sorted, repetition-free listing. *)
Lemma sorted_unique_ext ws1 ws2 :
  sorted_unique ws1 → sorted_unique ws2 →
  (∀ w, w ∈ ws1 ↔ w ∈ ws2) → ws1 = ws2.
Proof.
  intros Hs1 Hs2 Hel.
  apply (StronglySorted_unique_strong (strict String.le)); [|done..|].
  - intros x1 x2 _ _ [_ Hn] [Hle _]. by destruct Hn.
  - by apply NoDup_Permutation; [apply sorted_unique_NoDup..|].
Qed.

Lemma sorted_unique_filter (P : string → Prop) `{!∀ w, Decision (P w)} ws :
  sorted_unique ws → sorted_unique (filter P ws).
Proof.
  unfold sorted_unique. induction 1 as [|x ws Hs IH Hx]; [constructor|].
  rewrite filter_cons. destruct (decide (P x)); [|done].
  constructor; [done|]. rewrite Forall_forall in Hx |- *.
  intros w [_ Hw]%list_elem_of_filter. by apply Hx.
Qed.

End SortUnique.

(** ** Query parsing *)

Section ParseQuery.
Context {F : Type} `{!FreqArith F}.
Implicit Types s : SearchServer F.

Lemma ParseQueryWord_is_stop s word query_word :
  ParseQueryWord word s = Returns query_word →
  is_stop query_word = IsStopWord s (data query_word).
Proof.
  unfold ParseQueryWord. destruct word as [|c0 word]; [done|].
  destruct (_ || _); [done|]. by intros [= <-].
Qed.

(** The parsing loop only ever appends words that are not stop words. *)
Lemma ParseQuery_loop_no_stop s tokens result query :
  ParseQuery_loop s tokens result = Returns query →
  (∀ w, w ∈ plus_words result ∨ w ∈ minus_words result → IsStopWord s w = false) →
  ∀ w, w ∈ plus_words query ∨ w ∈ minus_words query → IsStopWord s w = false.
Proof.
  revert result. induction tokens as [|word tokens IH]; intros result; simpl.
  - by intros [= <-].
  - destruct (ParseQueryWord word s) as [query_word|e] eqn:Hword; [|done].
    apply ParseQueryWord_is_stop in Hword.
    destruct (is_stop query_word) eqn:Hstop; simpl; [by apply IH|].
    destruct (is_minus query_word); intros Hloop Hres;
      apply (IH _ Hloop); simpl; intros w;
      rewrite elem_of_app, list_elem_of_singleton;
      intros [Hw|Hw]; try (apply Hres; tauto);
      destruct Hw as [Hw| ->]; try (apply Hres; tauto); congruence.
Qed.

Lemma ParseQuery_no_stop s text skip_sort query :
  ParseQuery text skip_sort s = Returns query →
  ∀ w, w ∈ plus_words query ∨ w ∈ minus_words query → IsStopWord s w = false.
Proof.
  unfold ParseQuery.
  destruct (ParseQuery_loop _ _ _) as [result|e] eqn:Hloop; [|done].
  pose proof (ParseQuery_loop_no_stop _ _ _ _ Hloop) as Hres.
  assert (∀ w, w ∈ plus_words result ∨ w ∈ minus_words result →
               IsStopWord s w = false) as Hns.
  { apply Hres. simpl. intros w [Hw|Hw]; by apply elem_of_nil in Hw. }
  destruct skip_sort; simpl; intros [= <-]; [done|]. simpl.
  intros w. rewrite !elem_of_unique_sort. apply Hns.
Qed.

Lemma ParseQuery_sorted s text query :
  ParseQuery text false s = Returns query →
  sorted_unique (plus_words query) ∧ sorted_unique (minus_words query).
Proof.
  unfold ParseQuery. destruct (ParseQuery_loop _ _ _) as [result|e]; [|done].
  simpl. intros [= <-]. simpl. split; apply sorted_unique_sort.
Qed.

(** Parsing with deduplication is parsing without it, followed by sorting
    and deduplicating the two lists. *)
Lemma ParseQuery_skip_sort s text :
  ParseQuery text false s =
    match ParseQuery text true s with
    | Throws e => Throws e
    | Returns result =>
        Returns {| plus_words := unique (sort (plus_words result));
                   minus_words := unique (sort (minus_words result)) |}
    end.
Proof. unfold ParseQuery. by destruct (ParseQuery_loop _ _ _). Qed.

End ParseQuery.

(** ** MatchDocument *)

Section MatchDocument.
Context {F : Type} `{!FreqArith F}.
Implicit Types s : SearchServer F.

Lemma word_checker_has_posting s document_id word :
  word_checker s document_id word = true ↔ has_posting s word document_id.
Proof.
  unfold word_checker, has_posting, lookup2.
  destruct (word_to_document_freqs_ s !! word) as [freqs|]; simpl.
  - by rewrite bool_decide_eq_true.
  - split; [done|]. by intros [? ?].
Qed.

Lemma minus_loop_existsb s document_id words :
  minus_loop s document_id words = existsb (word_checker s document_id) words.
Proof.
  induction words as [|w words IH]; simpl; [done|].
  unfold word_checker at 1.
  destruct (word_to_document_freqs_ s !! w) as [freqs|]; simpl; [|done].
  by destruct (bool_decide _).
Qed.

Lemma plus_loop_cons s document_id w words matched_words :
  plus_loop s document_id (w :: words) matched_words =
    if word_checker s document_id w
    then plus_loop s document_id words (matched_words ++ [w])
    else plus_loop s document_id words matched_words.
Proof.
  simpl. unfold word_checker.
  destruct (word_to_document_freqs_ s !! w) as [freqs|]; [|done].
  by destruct (bool_decide _).
Qed.

Lemma plus_loop_filter s document_id words matched_words :
  plus_loop s document_id words matched_words =
    matched_words ++ filter (λ w, word_checker s document_id w = true) words.
Proof.
  revert matched_words. induction words as [|w words IH]; intros acc.
  - simpl. by rewrite app_nil_r.
  - rewrite plus_loop_cons, filter_cons.
    destruct (word_checker s document_id w) eqn:Hw.
    + rewrite decide_True by done. rewrite IH. by rewrite <-app_assoc.
    + rewrite decide_False by done. apply IH.
Qed.

Lemma existsb_has_posting s document_id words :
  existsb (word_checker s document_id) words = true ↔
  ∃ w, w ∈ words ∧ has_posting s w document_id.
Proof.
  rewrite existsb_exists. split; intros (w & Hin & Hw); exists w.
  - by rewrite list_elem_of_In, <-word_checker_has_posting.
  - by rewrite <-list_elem_of_In, word_checker_has_posting.
Qed.

Lemma existsb_ext_elem_of (c : string → bool) ws1 ws2 :
  (∀ w, w ∈ ws1 ↔ w ∈ ws2) → existsb c ws1 = existsb c ws2.
Proof.
  intros Hel. apply eq_true_iff_eq. rewrite !existsb_exists.
  split; intros (w & Hin & Hw); exists w; split; try done;
    apply list_elem_of_In, Hel, list_elem_of_In, Hin.
Qed.

(** Both variants compute the same result on every server, query text
    and id. *)
Lemma MatchDocument_par_seq s raw_query document_id :
  MatchDocument_par raw_query document_id s =
  MatchDocument_seq raw_query document_id s.
Proof.
  unfold MatchDocument_par, MatchDocument_seq, skip_sort_default.
  rewrite ParseQuery_skip_sort.
  destruct (ParseQuery raw_query true s) as [query|e]; [|done].
  destruct (documents_at document_id s) as [d|e]; [|done]. simpl.
  rewrite minus_loop_existsb.
  rewrite (existsb_ext_elem_of _ (unique (sort (minus_words query)))
             (minus_words query)) by apply elem_of_unique_sort.
  destruct (existsb _ _); [done|].
  rewrite plus_loop_filter. simpl. do 2 f_equal.
  apply sorted_unique_ext.
  - apply sorted_unique_sort.
  - apply sorted_unique_filter, sorted_unique_sort.
  - intros w. rewrite elem_of_unique_sort, !list_elem_of_filter.
    by rewrite elem_of_unique_sort.
Qed.

End MatchDocument.

(** ** The states of a server are consistent *)

Section Reachable.
Context {F : Type} `{!FreqArith F}.
Implicit Types s : SearchServer F.

Lemma SearchServer_of_container_consistent stop_words :
  consistent (SearchServer_of_container (F := F) stop_words).
Proof.
  split; simpl; done.
Qed.

Lemma reachable_consistent s : reachable s → consistent s.
Proof.
  induction 1 as [stop_words|s id document status ratings _ IH|s id _ IH Hret
                 |s id order _ IH Horder Hret].
  - apply SearchServer_of_container_consistent.
  - by apply AddDocument_consistent.
  - destruct (RemoveDocument_seq_Returns s id IH Hret) as [_ ->]. done.
  - destruct (RemoveDocument_par_Returns s order id IH Horder Hret) as [_ ->].
    done.
Qed.

(** A removal with defined behaviour changes nothing, so the states of a
    server are those that additions build. *)
Lemma reachable_additions (P : SearchServer F → Prop) :
  (∀ stop_words, P (SearchServer_of_container stop_words)) →
  (∀ s document_id document status ratings,
     reachable s → P s →
     P (AddDocument document_id document status ratings s).2) →
  ∀ s, reachable s → P s.
Proof.
  intros Hnew Hadd s.
  induction 1 as [stop_words|s id document status ratings Hs IH|s id Hs IH Hret
                 |s id order Hs IH Horder Hret].
  - apply Hnew.
  - by apply Hadd.
  - apply reachable_consistent in Hs.
    destruct (RemoveDocument_seq_Returns s id Hs Hret) as [_ ->]. done.
  - apply reachable_consistent in Hs.
    destruct (RemoveDocument_par_Returns s order id Hs Horder Hret) as [_ ->].
    done.
Qed.

(** A document unknown to [documents_] is unknown to both posting maps. *)
Lemma consistent_fresh_fwd s document_id :
  consistent s → documents_ s !! document_id = None →
  document_to_word_freqs_ s !! document_id = None.
Proof.
  intros [_ Hfwd Hids _] Hfresh.
  apply not_elem_of_dom. apply not_elem_of_dom in Hfresh. set_solver.
Qed.

Lemma consistent_fresh_ids s document_id :
  consistent s → documents_ s !! document_id = None →
  document_id ∉ document_ids_ s.
Proof.
  intros [_ _ Hids _] Hfresh. apply not_elem_of_dom in Hfresh. set_solver.
Qed.

Lemma consistent_fresh_rev s document_id w :
  consistent s → documents_ s !! document_id = None →
  lookup2 (word_to_document_freqs_ s) w document_id = None.
Proof.
  intros Hs Hfresh. rewrite (consistent_mirrored _ Hs). unfold lookup2.
  by rewrite consistent_fresh_fwd.
Qed.

Lemma elem_of_DocumentIds s document_id :
  document_id ∈ DocumentIds s ↔ document_id ∈ document_ids_ s.
Proof.
  unfold DocumentIds, in_order. by rewrite merge_sort_Permutation, elem_of_elements.
Qed.

(** Removing an id the server does not know changes nothing. *)
Lemma RemoveDocument_unknown s document_id :
  consistent s → documents_ s !! document_id = None →
  RemoveDocument document_id s = (Returns tt, s).
Proof.
  intros Hs Hfresh. by apply RemoveDocument_seq_absent, consistent_fresh_fwd.
Qed.

(** A document none of whose words is indexed is stored with its metadata
    and its id and with no posting; [RemoveDocument] then takes it for
    unknown and leaves it in place. *)
Lemma AddDocument_no_words s document_id document status ratings :
  consistent s →
  (0 ≤ document_id)%Z → documents_ s !! document_id = None →
  SplitIntoWordsNoStop document s = Returns [] →
  ∃ s1,
    AddDocument document_id document status ratings s = (Returns tt, s1) ∧
    GetDocumentCount s1 = (GetDocumentCount s + 1)%Z ∧
    document_ids_ s1 = {[ document_id ]} ∪ document_ids_ s ∧
    document_to_word_freqs_ s1 !! document_id = None ∧
    (∀ w, ¬ has_posting s1 w document_id) ∧
    RemoveDocument document_id s1 = (Returns tt, s1).
Proof.
  intros Hs Hid Hfresh Hwords.
  rewrite AddDocument_fresh by done. simpl. rewrite Hwords. simpl.
  eexists. split; [done|].
  pose proof (consistent_fresh_fwd _ _ Hs Hfresh) as Hfwd.
  split_and!; simpl; try done.
  - unfold GetDocumentCount. simpl. rewrite map_size_insert_None by done. lia.
  - intros w [f Hf]. simpl in Hf.
    by rewrite (consistent_fresh_rev s document_id w Hs Hfresh) in Hf.
  - unfold RemoveDocument. by apply RemoveDocument_seq_absent.
Qed.

End Reachable.

(** ** The postings of a document are a function of its text *)

Section IndexedFromText.
Context {F : Type} `{!FreqArith F}.
Implicit Types s : SearchServer F.

(** Every enumerated document has its metadata, its text passes the
    validation, and its term frequencies are what the loop of [AddDocument]
    builds from the words of the text, starting from the empty mapping. *)
Lemma reachable_indexed_from_text s :
  reachable s →
  ∀ x, x ∈ document_ids_ s →
    ∃ d words,
      documents_ s !! x = Some d ∧
      SplitIntoWordsNoStop (text d) s = Returns words ∧
      GetWordFrequencies x s =
        foldl (λ m w, add_at w (f_div f_one (f_of_size (length words))) m)
              ∅ words.
Proof.
  intros Hs. pattern s. revert s Hs. apply reachable_additions.
  - intros stop_words x Hx. simpl in Hx. by apply elem_of_empty in Hx.
  - intros s id document status ratings Hs IH.
    apply reachable_consistent in Hs.
    destruct (decide ((id < 0)%Z ∨ is_Some (documents_ s !! id))) as [Hbad|Hok].
    { by rewrite AddDocument_invalid_id. }
    assert (documents_ s !! id = None) as Hfresh.
    { destruct (documents_ s !! id) eqn:E; [destruct Hok; eauto|done]. }
    pose proof (consistent_fresh_ids _ _ Hs Hfresh) as Hnew.
    pose proof (consistent_fresh_fwd _ _ Hs Hfresh) as Hfwd.
    rewrite AddDocument_fresh by (done || lia). cbv zeta.
    destruct (SplitIntoWordsNoStop document s) as [words|e] eqn:Hwords;
      cbn [snd set_documents document_ids_ documents_]; unfold GetWordFrequencies;
      cbn [document_to_word_freqs_].
    + intros x [->%elem_of_singleton|Hx]%elem_of_union.
      * eexists _, words. rewrite lookup_insert_eq. split_and!; [done| |].
        -- by rewrite (SplitIntoWordsNoStop_stop_words s).
        -- destruct (decide (words = [])) as [->|Hne].
           ++ simpl. by rewrite Hfwd.
           ++ rewrite fwd_index_words_eq by done. by rewrite Hfwd.
      * assert (x ≠ id) as Hne by congruence.
        destruct (IH x Hx) as (d & words' & Hdoc & Hwords' & Hfreqs).
        exists d, words'. rewrite lookup_insert_ne by done.
        rewrite fwd_index_words_ne by done. split_and!; try done.
        by rewrite (SplitIntoWordsNoStop_stop_words s).
    + intros x Hx. assert (x ≠ id) as Hne by congruence.
      destruct (IH x Hx) as (d & words' & Hdoc & Hwords' & Hfreqs).
      exists d, words'. rewrite lookup_insert_ne by done. split_and!; try done.
      by rewrite (SplitIntoWordsNoStop_stop_words s).
Qed.

End IndexedFromText.

(** ** RemoveDuplicates *)

Section RemoveDuplicates.
Context {F : Type} `{!FreqArith F}.
Implicit Types s : SearchServer F.











End RemoveDuplicates.

(** ** The term frequencies of a document, in binary64 *)

Section Occurrences.
Context {F : Type} `{!FreqArith F}.

Lemma occurrences_cons w w' words :
  occurrences w (w' :: words) =
    if decide (w' = w) then S (occurrences w words) else occurrences w words.
Proof. unfold occurrences. rewrite filter_cons. by destruct (decide (w' = w)). Qed.

(** The frequency the loop of [AddDocument] leaves for a word: one addition
    of [x] for each occurrence. *)
Lemma index_words_lookup (x : F) words (m : gmap string F) w :
  foldl (λ m' w', add_at w' x m') m words !! w =
    match occurrences w words with
    | 0 => m !! w
    | S k => Some (Nat.iter (S k) (λ a, f_add a x) (default f_zero (m !! w)))
    end.
Proof.
  revert m. induction words as [|w' words IH]; intros m; [done|].
  simpl foldl. rewrite IH, occurrences_cons. unfold add_at.
  destruct (decide (w' = w)) as [->|Hne].
  - rewrite lookup_insert_eq.
    destruct (occurrences w words) as [|k]; [done|].
    simpl default. f_equal. symmetry.
    apply (Nat.iter_succ_r (S k) (λ a, f_add a x)).
  - by rewrite lookup_insert_ne.
Qed.

Lemma occurrences_le w words : occurrences w words ≤ length words.
Proof. apply length_filter. Qed.

Lemma occurrences_elem_of w words : w ∈ words ↔ occurrences w words ≠ 0.
Proof.
  induction words as [|w' words IH]; [by rewrite elem_of_nil|].
  rewrite occurrences_cons, elem_of_cons, IH.
  destruct (decide (w' = w)) as [->|Hne]; [intuition lia|].
  intuition congruence.
Qed.

(** The occurrences of the words of a duplicate-free list that holds every
    word of [words] add up to the length of [words]. *)
Lemma sum_occurrences_cons (keys : list string) w' words :
  NoDup keys →
  sum_list ((λ w, occurrences w (w' :: words)) <$> keys) =
    sum_list ((λ w, occurrences w words) <$> keys)
    + (if decide (w' ∈ keys) then 1 else 0).
Proof.
  induction 1 as [|k keys Hk Hnd IH]; [done|].
  rewrite !fmap_cons. simpl sum_list. rewrite IH, occurrences_cons.
  destruct (decide (w' = k)) as [->|Hne].
  - rewrite (decide_False (P := k ∈ keys)) by done.
    rewrite (decide_True (P := k ∈ k :: keys)) by left. lia.
  - destruct (decide (w' ∈ keys)) as [Hin|Hnin].
    + rewrite (decide_True (P := w' ∈ k :: keys)) by by right. lia.
    + rewrite (decide_False (P := w' ∈ k :: keys)); [lia|].
      intros [?|?]%elem_of_cons; done.
Qed.

Lemma sum_occurrences (keys : list string) words :
  NoDup keys →
  (∀ w, w ∈ words → w ∈ keys) →
  sum_list ((λ w, occurrences w words) <$> keys) = length words.
Proof.
  intros Hnd. induction words as [|w' words IH]; intros Hall.
  - clear. induction keys as [|k keys IHk]; [done|].
    rewrite fmap_cons. simpl. exact IHk.
  - rewrite sum_occurrences_cons by done.
    rewrite decide_True by (apply Hall; left).
    rewrite IH; [simpl; lia|]. intros w Hw. apply Hall. by right.
Qed.

End Occurrences.

Section Binary64.
Implicit Types s : SearchServer spec_float.
Implicit Types f x : spec_float.

Lemma check_sums_sound x n k acc steps :
  check_sums x n (Z.of_nat k) acc steps = true →
  ∀ j, 1 ≤ j ≤ steps →
       close_to_share (Nat.iter j (λ a, f_add a x) acc) (Z.of_nat (k + j)) n
         = true.
Proof.
  revert k acc. induction steps as [|steps IH]; intros k acc Hcheck j Hj; [lia|].
  simpl in Hcheck. apply andb_true_iff in Hcheck as [Hfirst Hrest].
  rewrite <-Nat2Z.inj_succ in Hfirst, Hrest.
  destruct j as [|j]; [lia|]. destruct (decide (j = 0)) as [->|Hj0].
  - simpl. by rewrite Nat.add_1_r.
  - rewrite Nat.iter_succ_r.
    replace (k + S j) with (S k + j) by lia. apply IH; [done|lia].
Qed.

Lemma check_lengths_sound N n k :
  check_lengths N = true → 1 ≤ k ≤ n → n ≤ N →
  close_to_share
    (Nat.iter k (λ a, f_add a (f_div f_one (f_of_size n))) f_zero)
    (Z.of_nat k) (Z.of_nat n) = true.
Proof.
  intros Hcheck Hk Hn. unfold check_lengths in Hcheck.
  rewrite List.forallb_forall in Hcheck.
  assert (check_length n = true) as Hlength.
  { apply Hcheck, List.in_seq. lia. }
  apply (check_sums_sound _ (Z.of_nat n) 0 f_zero n Hlength k). lia.
Qed.

(** The check succeeds for every length up to [max_words]. *)
Lemma checked_lengths : check_lengths max_words = true.
Proof. vm_compute. reflexivity. Qed.

Lemma share_bounds k n : 1 ≤ k ≤ n → (0 < share k n ∧ share k n <= 1)%Q.
Proof.
  intros Hk. unfold share, Qlt, Qle. simpl. split; lia.
Qed.

(** The value of a positive number with a negative exponent. *)
Lemma SF2Q_negative_exponent m p :
  (SF2Q (S754_finite false m (Z.neg p)) == Z.pos m # 2 ^ p)%Q.
Proof.
  unfold SF2Q. change (Z.neg p) with (- Z.pos p)%Z.
  rewrite Qpower_opp, <-(Zpower_Qpower 2 (Z.pos p)) by lia.
  rewrite <-Pos2Z.inj_pow. unfold Qeq, Qinv, Qmult, inject_Z. simpl. lia.
Qed.

Lemma close_to_share_bounds f k n :
  1 ≤ k ≤ n →
  close_to_share f (Z.of_nat k) (Z.of_nat n) = true →
  is_positive_finite f = true ∧
  (share k n * (1 - tolerance) <= SF2Q f)%Q ∧
  (SF2Q f <= share k n * (1 + tolerance))%Q ∧
  (0 < SF2Q f)%Q ∧ (SF2Q f <= 1 + tolerance)%Q.
Proof.
  intros Hk Hclose.
  assert (is_positive_finite f = true ∧
          (share k n * (1 - tolerance) <= SF2Q f)%Q ∧
          (SF2Q f <= share k n * (1 + tolerance))%Q) as (Hfinite & Hl & Hu).
  { unfold close_to_share in Hclose.
    destruct f as [| | |[] m [|p|p]]; try done.
    apply andb_true_iff in Hclose as [Hclose Hu].
    apply andb_true_iff in Hclose as [Hshift Hl].
    apply Z.leb_le in Hshift, Hl, Hu.
    rewrite !Z.shiftl_mul_pow2 in Hl, Hu by done.
    assert (2 ^ Z.pos p = 2 ^ (Z.pos p - 40) * 1099511627776)%Z as Hpow.
    { change 1099511627776%Z with (2 ^ 40)%Z. rewrite <-Z.pow_add_r by lia.
      f_equal. lia. }
    split; [done|]. rewrite SF2Q_negative_exponent.
    assert (Z.pos (Pos.of_nat n) = Z.of_nat n) as Hn by lia.
    unfold share, tolerance, Qle, Qmult, Qminus, Qplus, Qopp. simpl.
    rewrite !Pos2Z.inj_mul, Hn, !Pos2Z.inj_pow, Hpow.
    generalize dependent (2 ^ (Z.pos p - 40))%Z. intros u Hl Hu _.
    split; nia. }
  destruct (share_bounds k n Hk) as [Hpos Hle].
  unfold tolerance in *. split_and!; [done..|lra|lra].
Qed.

(** The sum of the shares of the words of a list. *)
Lemma sum_shares (keys : list string) (count : string → nat) n :
  (foldr (λ w acc, share (count w) n + acc) 0 keys ==
   share (sum_list (count <$> keys)) n)%Q.
Proof.
  induction keys as [|k keys IH].
  - simpl. unfold share. simpl. reflexivity.
  - simpl foldr. rewrite IH, fmap_cons. simpl sum_list.
    unfold share. rewrite Nat2Z.inj_add. unfold Qeq, Qplus. simpl. lia.
Qed.

(** Frequencies that are close to their shares add up to the sum of the
    shares, within the tolerance. *)
Lemma sum_within_shares (items : list (string * spec_float))
    (count : string → nat) n :
  (∀ item, item ∈ items →
     (share (count item.1) n * (1 - tolerance) <= SF2Q item.2)%Q ∧
     (SF2Q item.2 <= share (count item.1) n * (1 + tolerance))%Q) →
  (foldr (λ w acc, share (count w) n + acc) 0 items.*1 * (1 - tolerance)
     <= foldr (λ item acc, SF2Q item.2 + acc) 0 items)%Q ∧
  (foldr (λ item acc, SF2Q item.2 + acc) 0 items
     <= foldr (λ w acc, share (count w) n + acc) 0 items.*1 * (1 + tolerance))%Q.
Proof.
  induction items as [|[w f] items IH]; intros Hitems.
  - simpl. unfold tolerance. split; lra.
  - destruct IH as [IHl IHu].
    { intros item Hitem. apply Hitems. by right. }
    destruct (Hitems (w, f)) as [Hl Hu]; [left|]. simpl in Hl, Hu.
    rewrite fmap_cons. simpl foldr. unfold tolerance in *. split; lra.
Qed.

(** The frequencies the loop of [AddDocument] builds from at most
    [max_words] words: each is close to the share of its word, and their
    exact sum is one within the tolerance. *)
Lemma index_words_binary64 words :
  words ≠ [] → length words ≤ max_words →
  let freqs :=
    foldl (λ m w, add_at w (f_div f_one (f_of_size (length words))) m)
          (∅ : gmap string spec_float) words in
  (1 - tolerance <= exact_sum freqs)%Q ∧
  (exact_sum freqs <= 1 + tolerance)%Q ∧
  ∀ w f, freqs !! w = Some f →
    1 ≤ occurrences w words ≤ length words ∧
    close_to_share f (Z.of_nat (occurrences w words))
      (Z.of_nat (length words)) = true.
Proof.
  intros Hne Hmax freqs.
  assert (1 ≤ length words) as Hlen by (destruct words; [done|simpl; lia]).
  assert (∀ w f, freqs !! w = Some f →
            1 ≤ occurrences w words ≤ length words ∧
            close_to_share f (Z.of_nat (occurrences w words))
              (Z.of_nat (length words)) = true)
    as Hclose.
  { intros w f. unfold freqs. rewrite index_words_lookup, lookup_empty.
    pose proof (occurrences_le w words) as Hle.
    destruct (occurrences w words) as [|k] eqn:Hocc; [done|].
    intros Hf. apply (inj Some) in Hf as <-. split; [lia|].
    apply (check_lengths_sound max_words); [apply checked_lengths|lia|done]. }
  assert (∀ w, w ∈ words → w ∈ (map_to_list freqs).*1) as Hall.
  { intros w Hw%occurrences_elem_of. apply list_elem_of_fmap.
    destruct (freqs !! w) as [f|] eqn:Hf.
    - exists (w, f). split; [done|]. by apply elem_of_map_to_list.
    - unfold freqs in Hf. rewrite index_words_lookup, lookup_empty in Hf.
      by destruct (occurrences w words). }
  pose proof (sum_occurrences _ words (NoDup_fst_map_to_list freqs) Hall)
    as Hsum.
  pose proof (sum_shares (map_to_list freqs).*1
                (λ w, occurrences w words) (length words)) as Hshares.
  rewrite Hsum in Hshares.
  assert (share (length words) (length words) == 1)%Q as Hone.
  { unfold share, Qeq. simpl. lia. }
  rewrite Hone in Hshares.
  destruct (sum_within_shares (map_to_list freqs)
              (λ w, occurrences w words) (length words)) as [Hl Hu].
  { intros [w f] Hwf%elem_of_map_to_list. simpl.
    destruct (Hclose w f Hwf) as [Hocc Hc].
    by destruct (close_to_share_bounds f (occurrences w words) (length words)
                   Hocc Hc) as (_ & ? & ? & _). }
  rewrite Hshares in Hl, Hu. unfold exact_sum, tolerance in *.
  split_and!; [lra|lra|done].
Qed.

End Binary64.

(** * The statements of the specification *)

Import Samples.

(** ** C5: the tokenizer *)

(** C5, as the code has it. The tokens of a text are exactly its segments
    between single spaces, in order and with the empty ones among them:
    [ws] is the result of [SplitIntoWords text] if and only if [ws] is a
    non-empty list of space-free strings that gives [text] back when joined
    with single spaces. Empty segments are not dropped. *)
Theorem SplitIntoWords_segments_of_text (text : string) (ws : list string) :
  SplitIntoWords text = ws ↔
  ws ≠ [] ∧ Forall (λ w, find " "%char w = None) ws ∧ join_spaces ws = text.
Proof.
  rewrite SplitIntoWords_segments. split.
  - intros <-. split_and!.
    + apply segments_nonempty.
    + apply segments_no_space.
    + apply join_spaces_segments.
  - intros (Hne & Hall & <-). by apply segments_join_spaces.
Qed.

(** C5 fails as stated: the empty text yields one token, the empty one, and
    the empty segment between two adjacent spaces is emitted as a token. *)
Lemma SplitIntoWords_emits_empty_tokens :
  SplitIntoWords "" = [""] ∧ SplitIntoWords "a  b" = ["a"; ""; "b"].
Proof. split; reflexivity. Qed.

Lemma SplitIntoWords_segments_of_text_witness :
  SplitIntoWords "to be" = ["to"; "be"].
Proof.
  apply (SplitIntoWords_segments_of_text "to be" ["to"; "be"]).
  split_and!; [done| |reflexivity].
  repeat constructor.
Defined.

(** ** C1: a document with an invalid word *)

Section Statements.
Context {F : Type} `{!FreqArith F}.
Implicit Types s : SearchServer F.

(** C1, what the code does. When a token of the text holds a byte below
    0x20 and the id is fresh and non-negative, [AddDocument] throws the
    exception for an invalid word and leaves the document ids and both
    posting maps as they were, but the metadata of the document has been
    stored by then and stays: [GetDocumentCount] has grown by one. *)
Theorem AddDocument_invalid_word_keeps_metadata
    s document_id document status ratings :
  (0 ≤ document_id)%Z → documents_ s !! document_id = None →
  (∃ w c, w ∈ SplitIntoWords document ∧ c ∈ list_ascii_of_string w ∧
          (N_of_ascii c < 32)%N) →
  ∃ w,
    AddDocument document_id document status ratings s =
      (Throws (invalid_argument ("Word " +:+ w +:+ " is invalid")),
       set_documents
         (insert document_id {| rating := ComputeAverageRating ratings;
                                status := status; text := document |}) s) ∧
    GetDocumentCount (AddDocument document_id document status ratings s).2 =
      (GetDocumentCount s + 1)%Z.
Proof.
  intros Hid Hfresh (w & c & Hw & Hc & Hlt).
  assert (Exists (λ w, IsValidWord w = false) (SplitIntoWords document)) as Hex.
  { apply Exists_exists. exists w. split; [done|].
    apply IsValidWord_false. eauto. }
  destruct (SplitIntoWordsNoStop_loop_invalid s _ [] Hex) as (w' & _ & _ & Hthrow).
  exists w'. rewrite AddDocument_fresh by done. cbv zeta.
  unfold SplitIntoWordsNoStop. rewrite Hthrow. split; [done|].
  unfold GetDocumentCount. simpl. rewrite map_size_insert_None by done. lia.
Qed.

(** ** C3: an invalid id *)

(** C3. With a negative id, or with an id that has metadata in the server
    (as every id that [DocumentIds] enumerates has), [AddDocument] throws
    the exception for an invalid id and the server is exactly as before. *)
Theorem AddDocument_rejects_invalid_id s document_id document status ratings :
  (document_id < 0)%Z ∨ is_Some (documents_ s !! document_id) ∨
    (reachable s ∧ document_id ∈ DocumentIds s) →
  AddDocument document_id document status ratings s =
    (Throws (invalid_argument "Invalid document_id"), s).
Proof.
  intros Hid. apply AddDocument_invalid_id.
  destruct Hid as [Hneg|[Hdup|[Hs Hin]]]; [by left|by right|right].
  apply reachable_consistent in Hs. apply elem_of_DocumentIds in Hin.
  apply elem_of_dom. by apply (consistent_ids_docs _ Hs).
Qed.

(** ** C2: adding and removing *)

(** C2, what the code does for a document none of whose words is indexed
    (a text of stop words only): [AddDocument] stores it, and
    [RemoveDocument], which looks for the id among the forward postings,
    returns without removing it. The document count and the ids are not
    restored. *)
Theorem RemoveDocument_keeps_wordless_document
    s document_id document status ratings :
  reachable s →
  (0 ≤ document_id)%Z → documents_ s !! document_id = None →
  SplitIntoWordsNoStop document s = Returns [] →
  ∃ s1,
    AddDocument document_id document status ratings s = (Returns tt, s1) ∧
    RemoveDocument document_id s1 = (Returns tt, s1) ∧
    GetDocumentCount s1 = (GetDocumentCount s + 1)%Z ∧
    document_id ∈ DocumentIds s1 ∧
    document_id ∉ DocumentIds s.
Proof.
  intros Hs%reachable_consistent Hid Hfresh Hwords.
  destruct (AddDocument_no_words s document_id document status ratings
              Hs Hid Hfresh Hwords) as (s1 & Hadd & Hcount & Hids & _ & _ & Hrem).
  exists s1. split_and!; try done.
  - rewrite elem_of_DocumentIds, Hids. set_solver.
  - rewrite elem_of_DocumentIds. by apply consistent_fresh_ids.
Qed.

(** ** C8: the parsed query *)

(** C8, as the code has it. When a query text parses without error (with
    the default deduplication), the plus words and the minus words are each
    sorted and free of repetitions, and no stop word is among them. The two
    lists need not be disjoint. *)
Theorem ParseQuery_structure s raw_query query :
  ParseQuery raw_query skip_sort_default s = Returns query →
  sorted_unique (plus_words query) ∧
  sorted_unique (minus_words query) ∧
  ∀ w, w ∈ plus_words query ∨ w ∈ minus_words query → w ∉ stop_words_ s.
Proof.
  intros Hq. destruct (ParseQuery_sorted _ _ _ Hq) as [Hplus Hminus].
  split_and!; [done..|]. intros w Hw.
  pose proof (ParseQuery_no_stop _ _ _ _ Hq w Hw) as Hstop.
  unfold IsStopWord in Hstop. by apply bool_decide_eq_false in Hstop.
Qed.

(** ** C6: MatchDocument *)

(** C6, as the code has it. The query is parsed first: a text that does
    not parse makes [MatchDocument] fail with the error of the parser,
    whether the id is known or not. For a text that parses, [MatchDocument]
    fails with [out_of_range] when the id has no metadata; otherwise, when
    a minus word has a posting for the id, it returns no word and the
    status of the document; otherwise it returns the sorted,
    repetition-free list of the plus words with a posting for the id, and
    the status. *)
Theorem MatchDocument_contract s raw_query document_id :
  match ParseQuery raw_query skip_sort_default s with
  | Throws e => MatchDocument_seq raw_query document_id s = Throws e
  | Returns query =>
      match documents_ s !! document_id with
      | None => MatchDocument_seq raw_query document_id s = Throws out_of_range
      | Some d =>
          ((∃ w, w ∈ minus_words query ∧ has_posting s w document_id) →
           MatchDocument_seq raw_query document_id s = Returns ([], status d)) ∧
          (¬ (∃ w, w ∈ minus_words query ∧ has_posting s w document_id) →
           ∃ ws,
             MatchDocument_seq raw_query document_id s = Returns (ws, status d) ∧
             sorted_unique ws ∧
             ∀ w, w ∈ ws ↔ w ∈ plus_words query ∧ has_posting s w document_id)
      end
  end.
Proof.
  unfold MatchDocument_seq, documents_at.
  destruct (ParseQuery raw_query skip_sort_default s) as [query|e] eqn:Hq; [|done].
  destruct (documents_ s !! document_id) as [d|]; [|done].
  rewrite minus_loop_existsb, plus_loop_filter. simpl.
  destruct (existsb _ _) eqn:Hminus.
  - split; [done|]. intros Hno. destruct Hno. by apply existsb_has_posting.
  - split.
    + intros Hyes%existsb_has_posting. congruence.
    + intros _. eexists. split; [done|]. split.
      * apply sorted_unique_filter. by apply (ParseQuery_sorted s raw_query).
      * intros w. rewrite list_elem_of_filter, word_checker_has_posting. tauto.
Qed.

(** ** C7: the sequential and the parallel variants *)


End Statements.

(** ** C4: the sum of the term frequencies *)

(** C4, as the code has it. In every state a server reaches with defined
    behaviour (by additions, and by removals that find no postings; what the
    removal of a document with indexed words does is the matter of C7),
    every enumerated document has a text that splits into words. When none
    of them is indexed (all are stop words), its term frequencies are the
    empty mapping. When at least one and at most [max_words] of them are
    indexed, the binary64 frequencies stored for the document, added up
    exactly, are within [tolerance] of one, and each of them is a finite
    number above zero and at most one plus [tolerance]. *)
Theorem term_frequencies_sum_to_one
    (s : SearchServer spec_float) (document_id : Z) :
  reachable s →
  document_id ∈ DocumentIds s →
  ∃ d words,
    documents_ s !! document_id = Some d ∧
    SplitIntoWordsNoStop (text d) s = Returns words ∧
    (words = [] → GetWordFrequencies document_id s = ∅) ∧
    (words ≠ [] → length words ≤ max_words →
     (1 - tolerance <= exact_sum (GetWordFrequencies document_id s))%Q ∧
     (exact_sum (GetWordFrequencies document_id s) <= 1 + tolerance)%Q ∧
     ∀ w f, GetWordFrequencies document_id s !! w = Some f →
            is_positive_finite f = true ∧
            (0 < SF2Q f)%Q ∧ (SF2Q f <= 1 + tolerance)%Q).
Proof.
  intros Hs Hid%elem_of_DocumentIds.
  destruct (reachable_indexed_from_text s Hs document_id Hid)
    as (d & words & Hd & Hwords & Hfreqs).
  exists d, words. split_and!; [done..| |].
  - intros ->. by rewrite Hfreqs.
  - intros Hne Hmax. rewrite Hfreqs.
    destruct (index_words_binary64 words Hne Hmax) as (Hl & Hu & Hclose).
    split_and!; [done..|]. intros w f Hf.
    destruct (Hclose w f Hf) as [Hocc Hc].
    by destruct (close_to_share_bounds f _ _ Hocc Hc) as (? & _ & _ & ? & ?).
Qed.

(** C4 fails as stated, in the arithmetic of the code. A document of stop
    words only is indexed with no term frequency at all, so that its sum is
    zero; and in binary64 nine additions of the rounded ninth give a
    frequency above one. *)
Lemma term_frequencies_not_normalised :
  reachable nine_server ∧
  1%Z ∈ DocumentIds nine_server ∧
  GetWordFrequencies 1 nine_server = ∅ ∧
  freq_sum (GetWordFrequencies 1 nine_server) = S754_zero false ∧
  2%Z ∈ DocumentIds nine_server ∧
  GetWordFrequencies 2 nine_server !! "a" =
    Some (S754_finite false 4503599627370497 (-52)) ∧
  SFltb (SFone prec64 emax64) (S754_finite false 4503599627370497 (-52)) = true.
Proof.
  split_and!.
  - do 2 apply reachable_add. apply reachable_new.
  - apply elem_of_DocumentIds. vm_compute. set_solver.
  - vm_compute. reflexivity.
  - vm_compute. reflexivity.
  - apply elem_of_DocumentIds. vm_compute. set_solver.
  - vm_compute. reflexivity.
  - vm_compute. reflexivity.
Qed.

(** ** C6, C8, C9: evaluations *)

(** C6 fails as stated: with a malformed query text and an unknown id,
    [MatchDocument] fails with the error of the parser, not with the error
    for an unknown document. *)
Lemma MatchDocument_malformed_query_first :
  documents_ plain_server !! 5%Z = None ∧
  MatchDocument_seq "--" 5 plain_server =
    Throws (invalid_argument "Query word - is invalid").
Proof. split; vm_compute; reflexivity. Qed.

(** C8 fails as stated: a word given both with and without the minus sign
    is both a plus word and a minus word of the parsed query. *)
Lemma ParseQuery_sets_overlap :
  ParseQuery "cat -cat" skip_sort_default plain_server =
    Returns {| plus_words := ["cat"]; minus_words := ["cat"] |}.
Proof. vm_compute. reflexivity. Qed.

(** C9, the code at the failing input. Two documents of stop words only
    have the same, empty, set of terms; [RemoveDuplicates] finds the second
    to be a duplicate, and the removal it asks for removes nothing: both
    ids are still enumerated afterwards. *)
Theorem RemoveDuplicates_keeps_wordless_duplicate :
  reachable the_server_2 ∧
  DocumentIds the_server_2 = [1; 2]%Z ∧
  dom (GetWordFrequencies 1 the_server_2) = dom (GetWordFrequencies 2 the_server_2) ∧
  RemoveDuplicates_scan the_server_2 (DocumentIds the_server_2) ∅ [] = [2%Z] ∧
  RemoveDuplicates the_server_2 = (Returns tt, the_server_2) ∧
  DocumentIds (RemoveDuplicates the_server_2).2 = [1; 2]%Z.
Proof.
  split_and!; try (vm_compute; reflexivity).
  do 2 apply reachable_add. apply reachable_new.
Qed.


(** ** The theorems at sample inputs *)

Lemma reachable_the_server : reachable the_server.
Proof. apply (reachable_new (SplitIntoWords "the")). Defined.

Lemma reachable_aba_server : reachable aba_server.
Proof. apply reachable_add. apply (reachable_new (SplitIntoWords "")). Defined.

Lemma AddDocument_invalid_word_keeps_metadata_witness :
  (0 ≤ 1)%Z ∧
  documents_ plain_server !! 1%Z = None ∧
  (∃ w c, w ∈ SplitIntoWords control_text ∧ c ∈ list_ascii_of_string w ∧
          (N_of_ascii c < 32)%N) ∧
  ∃ w,
    AddDocument 1 control_text ACTIVE [] plain_server =
      (Throws (invalid_argument ("Word " +:+ w +:+ " is invalid")),
       set_documents
         (insert 1%Z {| rating := ComputeAverageRating [];
                        status := ACTIVE; text := control_text |}) plain_server) ∧
    GetDocumentCount (AddDocument 1 control_text ACTIVE [] plain_server).2 =
      (GetDocumentCount plain_server + 1)%Z.
Proof.
  assert (∃ w c, w ∈ SplitIntoWords control_text ∧ c ∈ list_ascii_of_string w ∧
                 (N_of_ascii c < 32)%N) as Hbad.
  { exists control_text, "001"%char. split_and!.
    - apply list_elem_of_here.
    - apply list_elem_of_further, list_elem_of_here.
    - reflexivity. }
  split_and!; [lia|reflexivity|exact Hbad|].
  apply AddDocument_invalid_word_keeps_metadata; [lia|reflexivity|exact Hbad].
Defined.

Lemma AddDocument_rejects_invalid_id_witness :
  ((-1 < 0)%Z ∨ is_Some (documents_ aba_server !! (-1)%Z) ∨
     (reachable aba_server ∧ (-1)%Z ∈ DocumentIds aba_server)) ∧
  AddDocument (-1) "a b" ACTIVE [] aba_server =
    (Throws (invalid_argument "Invalid document_id"), aba_server).
Proof.
  split; [left; lia|].
  apply AddDocument_rejects_invalid_id. left. lia.
Defined.

Lemma RemoveDocument_keeps_wordless_document_witness :
  reachable the_server ∧
  (0 ≤ 1)%Z ∧
  documents_ the_server !! 1%Z = None ∧
  SplitIntoWordsNoStop "the" the_server = Returns [] ∧
  ∃ s1,
    AddDocument 1 "the" ACTIVE [] the_server = (Returns tt, s1) ∧
    RemoveDocument 1 s1 = (Returns tt, s1) ∧
    GetDocumentCount s1 = (GetDocumentCount the_server + 1)%Z ∧
    1%Z ∈ DocumentIds s1 ∧
    1%Z ∉ DocumentIds the_server.
Proof.
  split_and!; [exact reachable_the_server|lia|reflexivity|reflexivity|].
  apply RemoveDocument_keeps_wordless_document;
    [exact reachable_the_server|lia|reflexivity|reflexivity].
Defined.

Lemma ParseQuery_structure_witness :
  ParseQuery "dog -the cat -fox dog" skip_sort_default the_server =
    Returns {| plus_words := ["cat"; "dog"]; minus_words := ["fox"] |} ∧
  sorted_unique ["cat"; "dog"] ∧
  sorted_unique ["fox"] ∧
  ∀ w, w ∈ ["cat"; "dog"] ∨ w ∈ ["fox"] → w ∉ stop_words_ the_server.
Proof.
  split; [reflexivity|].
  apply (ParseQuery_structure the_server "dog -the cat -fox dog"
           {| plus_words := ["cat"; "dog"]; minus_words := ["fox"] |}).
  reflexivity.
Defined.


Lemma enumerated_aba_server : 3%Z ∈ DocumentIds aba_server.
Proof. apply elem_of_DocumentIds. vm_compute. set_solver. Defined.

Lemma term_frequencies_sum_to_one_witness :
  reachable aba_server ∧
  3%Z ∈ DocumentIds aba_server ∧
  ∃ d words,
    documents_ aba_server !! 3%Z = Some d ∧
    SplitIntoWordsNoStop (text d) aba_server = Returns words ∧
    (words = [] → GetWordFrequencies 3 aba_server = ∅) ∧
    (words ≠ [] → length words ≤ max_words →
     (1 - tolerance <= exact_sum (GetWordFrequencies 3 aba_server))%Q ∧
     (exact_sum (GetWordFrequencies 3 aba_server) <= 1 + tolerance)%Q ∧
     ∀ w f, GetWordFrequencies 3 aba_server !! w = Some f →
            is_positive_finite f = true ∧
            (0 < SF2Q f)%Q ∧ (SF2Q f <= 1 + tolerance)%Q).
Proof.
  split_and!; [exact reachable_aba_server|exact enumerated_aba_server|].
  exact (term_frequencies_sum_to_one aba_server 3 reachable_aba_server
           enumerated_aba_server).
Defined.

Lemma MatchDocument_contract_witness :
  ∃ ws,
    MatchDocument_seq "b a a -c" 3 aba_server = Returns (ws, ACTIVE) ∧
    sorted_unique ws ∧
    ∀ w, w ∈ ws ↔ w ∈ ["a"; "b"] ∧ has_posting aba_server w 3.
Proof.
  pose proof (MatchDocument_contract aba_server "b a a -c" 3) as Hc.
  change (ParseQuery "b a a -c" skip_sort_default aba_server)
    with (Returns {| plus_words := ["a"; "b"]; minus_words := ["c"] |}) in Hc.
  change (documents_ aba_server !! 3%Z)
    with (Some {| rating := 4; status := ACTIVE; text := "a b a" |}) in Hc.
  destruct Hc as [_ Hc]. apply Hc.
  intros (w & Hw & Hp). apply list_elem_of_singleton in Hw as ->.
  destruct Hp as [f Hf]. discriminate Hf.
Defined.

(** * Further properties of the code *)

(** ** Stop words, validation and ratings *)

Section WordsAndRatings.
Context {F : Type} `{!FreqArith F}.
Implicit Types s : SearchServer F.

Lemma elem_of_non_empty_strings_fold (strings : list string) (acc : gset string) w :
  w ∈ foldl (λ non_empty_strings str,
               if decide (str = "") then non_empty_strings
               else {[ str ]} ∪ non_empty_strings) acc strings ↔
  w ∈ acc ∨ (w ∈ strings ∧ w ≠ "").
Proof.
  revert acc. induction strings as [|str strings IH]; intros acc; simpl.
  - split; [by left|]. intros [?|[Hin _]]; [done|]. by apply elem_of_nil in Hin.
  - rewrite IH, elem_of_cons. destruct (decide (str = "")) as [->|Hne].
    + split; [intros [?|[? ?]]; eauto|].
      intros [?|[[->|?] ?]]; eauto. done.
    + rewrite elem_of_union, elem_of_singleton. split.
      * intros [[->|?]|[? ?]]; eauto.
      * intros [?|[[->|?] ?]]; eauto.
Qed.

(** X1. The set [MakeUniqueNonEmptyStrings] builds holds exactly the
    strings of the container that are not empty. *)
Theorem MakeUniqueNonEmptyStrings_elements (strings : list string) (w : string) :
  w ∈ MakeUniqueNonEmptyStrings strings ↔ w ∈ strings ∧ w ≠ "".
Proof.
  unfold MakeUniqueNonEmptyStrings. rewrite elem_of_non_empty_strings_fold.
  split; [intros [Hw|?]; [by apply elem_of_empty in Hw|done]|by right].
Qed.

(** X2. A word is valid exactly when none of its bytes is below 0x20; the
    bytes from 0x80 on, negative as [char], are accepted. *)
Theorem IsValidWord_bytes (word : string) :
  IsValidWord word = true ↔
  ∀ c, c ∈ list_ascii_of_string word → (32 ≤ N_of_ascii c)%N.
Proof.
  split.
  - intros Hvalid c Hc. destruct (N.le_gt_cases 32 (N_of_ascii c)) as [?|Hlt];
      [done|].
    assert (IsValidWord word = false) as Hfalse
      by (apply IsValidWord_false; exists c; split; [done|lia]).
    congruence.
  - intros Hall. destruct (IsValidWord word) eqn:Hvalid; [done|].
    apply IsValidWord_false in Hvalid as (c & Hc & Hlt).
    specialize (Hall c Hc). lia.
Qed.

Lemma SplitIntoWordsNoStop_loop_first_invalid s pre w post words :
  Forall (λ w', IsValidWord w' = true) pre → IsValidWord w = false →
  SplitIntoWordsNoStop_loop s (pre ++ w :: post) words =
    Throws (invalid_argument ("Word " +:+ w +:+ " is invalid")).
Proof.
  intros Hpre Hw. revert words. induction Hpre as [|w' pre Hw' Hpre IH];
    intros words; simpl.
  - by rewrite Hw.
  - rewrite Hw'. simpl. destruct (IsStopWord s w'); apply IH.
Qed.

Lemma first_invalid_word (tokens : list string) :
  ¬ Forall (λ w, IsValidWord w = true) tokens →
  ∃ pre w post, tokens = pre ++ w :: post ∧
    Forall (λ w', IsValidWord w' = true) pre ∧ IsValidWord w = false.
Proof.
  induction tokens as [|t tokens IH]; intros Hnot.
  - destruct Hnot. constructor.
  - destruct (IsValidWord t) eqn:Ht.
    + destruct IH as (pre & w & post & -> & Hpre & Hw).
      { intros Hall. apply Hnot. by constructor. }
      exists (t :: pre), w, post. split_and!; [done| |done]. by constructor.
    + exists [], t, tokens. split_and!; [done|constructor|done].
Qed.

(** X3. [SplitIntoWordsNoStop] returns exactly when every token of the
    text is valid, and then returns the tokens that are not stop words, in
    their order and with their repetitions; otherwise it throws for the
    first invalid token. *)
Theorem SplitIntoWordsNoStop_outcome s (text : string) :
  (∀ words,
     SplitIntoWordsNoStop text s = Returns words ↔
     Forall (λ w, IsValidWord w = true) (SplitIntoWords text) ∧
     words = filter (λ w, w ∉ stop_words_ s) (SplitIntoWords text)) ∧
  (∀ e,
     SplitIntoWordsNoStop text s = Throws e ↔
     ∃ pre w post,
       SplitIntoWords text = pre ++ w :: post ∧
       Forall (λ w', IsValidWord w' = true) pre ∧ IsValidWord w = false ∧
       e = invalid_argument ("Word " +:+ w +:+ " is invalid")).
Proof.
  unfold SplitIntoWordsNoStop.
  destruct (decide (Forall (λ w, IsValidWord w = true) (SplitIntoWords text)))
    as [Hall|Hnot].
  - rewrite SplitIntoWordsNoStop_loop_valid by done. simpl. split.
    + intros words. split; [by intros [= <-]|by intros [_ ->]].
    + intros e. split; [done|]. intros (pre & w & post & Hsplit & _ & Hw & _).
      rewrite Hsplit in Hall. apply Forall_app in Hall as [_ Hall].
      apply Forall_cons in Hall as [Hw' _]. congruence.
  - destruct (first_invalid_word _ Hnot) as (pre & w & post & Hsplit & Hpre & Hw).
    rewrite Hsplit, SplitIntoWordsNoStop_loop_first_invalid by done. split.
    + intros words. split; [done|]. intros [Hall _]. destruct Hnot.
      by rewrite Hsplit.
    + intros e. split.
      * intros [= <-]. by exists pre, w, post.
      * intros (pre' & w' & post' & Hsplit' & Hpre' & Hw' & ->).
        assert (pre' = pre ∧ w' = w) as [_ ->]; [|done].
        clear -Hsplit' Hpre' Hw' Hpre Hw.
        revert pre' Hsplit' Hpre'. induction Hpre as [|p pre Hp Hpre IH];
          intros pre' Hsplit' Hpre'.
        -- destruct pre' as [|p' pre']; simpl in *; simplify_eq; [done|].
           apply Forall_cons in Hpre' as [? _]. congruence.
        -- destruct pre' as [|p' pre']; simpl in *; simplify_eq; [congruence|].
           apply Forall_cons in Hpre' as [_ Hpre'].
           by destruct (IH pre') as [-> ->].
Qed.

Lemma foldl_add_bounds (lo hi : Z) (ratings : list Z) (acc : Z) :
  Forall (λ r, lo ≤ r ≤ hi)%Z ratings →
  (acc + Z.of_nat (length ratings) * lo ≤ foldl Z.add acc ratings
   ≤ acc + Z.of_nat (length ratings) * hi)%Z.
Proof.
  intros Hall. revert acc. induction Hall as [|r ratings Hr Hall IH]; intros acc.
  - simpl. lia.
  - simpl foldl. specialize (IH (acc + r)%Z).
    rewrite length_cons, Nat2Z.inj_succ. lia.
Qed.

(** An [int] computation whose exact result fits leaves that result. *)
Lemma wrap_int_fits (z : Z) : fits_int z → wrap_int z = z.
Proof.
  unfold fits_int, wrap_int. intros Hz.
  rewrite Z.mod_small by lia. lia.
Qed.

(** A sum of ratings that stays within [int] is the exact sum. *)
Lemma foldl_wrap_exact (bound : Z) (ratings : list Z) (acc : Z) :
  Forall (λ r, Z.abs r ≤ bound)%Z ratings →
  (Z.abs acc + Z.of_nat (length ratings) * bound < 2 ^ 31)%Z →
  foldl (λ sum rating, wrap_int (sum + rating)) acc ratings =
    foldl Z.add acc ratings.
Proof.
  intros Hall. revert acc.
  induction Hall as [|r ratings Hr Hall IH]; intros acc Hfit; [done|].
  simpl foldl. rewrite length_cons, Nat2Z.inj_succ in Hfit.
  assert (0 ≤ Z.of_nat (length ratings) * bound)%Z by nia.
  rewrite wrap_int_fits by (unfold fits_int; nia).
  apply IH. nia.
Qed.

(** X4. For a non-empty list of ratings between [lo] and [hi], few enough
    for their sum to fit an [int], the sum the loop accumulates fits an
    [int] and the truncated mean lies between [lo] and [hi]. *)
Theorem ComputeAverageRating_bounds (lo hi : Z) (ratings : list Z) :
  ratings ≠ [] →
  Forall (λ r, lo ≤ r ≤ hi)%Z ratings →
  (Z.of_nat (length ratings) * Z.max (Z.abs lo) (Z.abs hi) < 2 ^ 31)%Z →
  fits_int (foldl Z.add 0%Z ratings) ∧
  (lo ≤ ComputeAverageRating ratings ≤ hi)%Z.
Proof.
  intros Hne Hall Hfit.
  pose proof (foldl_add_bounds lo hi ratings 0 Hall) as Hsum.
  assert (0 < Z.of_nat (length ratings))%Z as Hn by (destruct ratings; simpl; [done|lia]).
  assert (foldl (λ sum rating, wrap_int (sum + rating)) 0%Z ratings =
          foldl Z.add 0%Z ratings) as Hexact.
  { apply (foldl_wrap_exact (Z.max (Z.abs lo) (Z.abs hi))); [|lia].
    eapply Forall_impl; [exact Hall|]. simpl. lia. }
  assert (Z.quot (foldl Z.add 0%Z ratings) (wrap_int (Z.of_nat (length ratings))) =
          Z.quot (foldl Z.add 0%Z ratings) (Z.of_nat (length ratings))) as Hsize.
  { destruct (decide (Z.max (Z.abs lo) (Z.abs hi) = 0%Z)) as [Hzero|Hpos].
    - assert (foldl Z.add 0%Z ratings = 0%Z) as -> by nia.
      assert (∀ b, Z.quot 0 b = 0%Z) as Hquot by (by intros []).
      by rewrite !Hquot.
    - rewrite wrap_int_fits; [done|]. unfold fits_int. nia. }
  assert (ComputeAverageRating ratings =
          Z.quot (foldl Z.add 0%Z ratings) (Z.of_nat (length ratings))) as ->.
  { unfold ComputeAverageRating. destruct ratings as [|r ratings]; [done|].
    by rewrite Hexact, Hsize. }
  clear Hexact Hsize.
  set (n := Z.of_nat (length ratings)) in *.
  set (sum := foldl Z.add 0%Z ratings) in *.
  split.
  - unfold fits_int. nia.
  - pose proof (Z.quot_rem' sum n) as Hqr.
    pose proof (Z.rem_bound_abs sum n ltac:(lia)) as Hrem.
    nia.
Qed.

End WordsAndRatings.

(** ** The query parser *)

Section QueryParser.
Context {F : Type} `{!FreqArith F}.
Implicit Types s : SearchServer F.

Lemma ParseQueryWord_Returns s word query_word :
  ParseQueryWord word s = Returns query_word ↔
  query_word_ok (data query_word) ∧
  word = (if is_minus query_word then String "-"%char (data query_word)
          else data query_word) ∧
  is_stop query_word = IsStopWord s (data query_word).
Proof.
  unfold ParseQueryWord, query_word_ok. split.
  - destruct word as [|c0 word]; [done|].
    destruct (Ascii.eqb c0 "-"%char) eqn:Hc0.
    + apply Ascii.eqb_eq in Hc0 as ->. simpl.
      destruct word as [|c word]; [done|].
      destruct (Ascii.eqb c "-"%char) eqn:Hc; [done|]. simpl.
      destruct (IsValidWord (String c word)) eqn:Hvalid; [|done]. simpl.
      intros [= <-]. simpl. split_and!; try done.
      intros rest Heq. injection Heq as Heq _. subst c.
      by rewrite Ascii.eqb_refl in Hc.
    + simpl. rewrite Hc0. simpl.
      destruct (IsValidWord (String c0 word)) eqn:Hvalid; [|done]. simpl.
      intros [= <-]. simpl. split_and!; try done.
      intros rest Heq. injection Heq as Heq _. subst c0.
      by rewrite Ascii.eqb_refl in Hc0.
  - destruct query_word as [d m st]. simpl.
    intros ((Hne & Hminus & Hvalid) & -> & ->).
    destruct d as [|c d]; [done|].
    assert (Ascii.eqb c "-"%char = false) as Hc.
    { apply Ascii.eqb_neq. intros ->. by apply (Hminus d). }
    destruct m; simpl.
    + by rewrite Hc, Hvalid.
    + rewrite Hc. simpl. by rewrite Hc, Hvalid.
Qed.

(** X5. [ParseQueryWord] returns exactly for a word that, with at most one
    leading minus taken off, is not empty, does not begin with a minus and
    has no control character; what it returns is the word without that
    minus, whether there was one, and whether the rest is a stop word. *)
Theorem ParseQueryWord_accepts s (word : string) (query_word : QueryWord) :
  ParseQueryWord word s = Returns query_word ↔
  query_word_ok (data query_word) ∧
  word = (if is_minus query_word then String "-"%char (data query_word)
          else data query_word) ∧
  is_stop query_word = bool_decide (data query_word ∈ stop_words_ s).
Proof. apply ParseQueryWord_Returns. Qed.

(** The tokens the loop gets through without throwing are all accepted by
    [ParseQueryWord]. *)
Lemma ParseQuery_loop_Returns s tokens result query :
  ParseQuery_loop s tokens result = Returns query →
  Forall (λ t, ∃ query_word, ParseQueryWord t s = Returns query_word) tokens.
Proof.
  revert result. induction tokens as [|t tokens IH]; intros result; simpl.
  - constructor.
  - destruct (ParseQueryWord t s) as [query_word|e] eqn:Ht; [|done].
    intros Hloop. constructor; [eauto|].
    destruct (negb (is_stop query_word)); [destruct (is_minus query_word)|];
      by eapply IH.
Qed.

Lemma ParseQuery_loop_accepted s tokens result :
  Forall (λ t, ∃ query_word, ParseQueryWord t s = Returns query_word) tokens →
  ∃ query, ParseQuery_loop s tokens result = Returns query.
Proof.
  intros Hall. revert result.
  induction Hall as [|t tokens [query_word Ht] Hall IH]; intros result; simpl.
  - eauto.
  - rewrite Ht.
    destruct (negb (is_stop query_word)); [destruct (is_minus query_word)|];
      apply IH.
Qed.

Lemma ParseQuery_loop_first_rejected s pre t post result e :
  Forall (λ t', ∃ query_word, ParseQueryWord t' s = Returns query_word) pre →
  ParseQueryWord t s = Throws e →
  ParseQuery_loop s (pre ++ t :: post) result = Throws e.
Proof.
  intros Hpre Ht. revert result.
  induction Hpre as [|t' pre [query_word Ht'] Hpre IH]; intros result; simpl.
  - by rewrite Ht.
  - rewrite Ht'.
    destruct (negb (is_stop query_word)); [destruct (is_minus query_word)|];
      apply IH.
Qed.

(** The words the loop appends: the tokens without a leading minus go to
    the plus words, the tokens with one go, stripped, to the minus words,
    unless they are stop words. *)
Lemma ParseQuery_loop_elements s tokens result query :
  ParseQuery_loop s tokens result = Returns query →
  ∀ w,
    (w ∈ plus_words query ↔
     w ∈ plus_words result ∨
     (w ∈ tokens ∧ (∀ rest, w ≠ String "-"%char rest) ∧ w ∉ stop_words_ s)) ∧
    (w ∈ minus_words query ↔
     w ∈ minus_words result ∨
     (String "-"%char w ∈ tokens ∧ w ∉ stop_words_ s)).
Proof.
  revert result. induction tokens as [|t tokens IH]; intros result; simpl.
  - intros [= <-] w. split; (split; [by left|]).
    + intros [?|[Hin _]]; [done|]. by apply elem_of_nil in Hin.
    + intros [?|[Hin _]]; [done|]. by apply elem_of_nil in Hin.
  - destruct (ParseQueryWord t s) as [[d m st]|e] eqn:Ht; [|done].
    apply ParseQueryWord_Returns in Ht as ((Hne & Hminus & Hvalid) & -> & ->).
    simpl in *. unfold IsStopWord. clear Hne Hvalid.
    case_bool_decide as Hstop; simpl; [|destruct m];
      intros Hloop w; destruct (IH _ Hloop w) as [Hplus Hminus_w];
      rewrite Hplus, Hminus_w; simpl;
      rewrite ?elem_of_app, ?list_elem_of_singleton, !elem_of_cons;
      clear IH Hplus Hminus_w Hloop; try destruct m; naive_solver.
Qed.

(** X6. A query text parses exactly when [ParseQueryWord] accepts every
    token of it; otherwise the exception is the one of the first token that
    is not accepted. In particular a text with an empty token (the empty
    text, a leading, trailing or doubled space) does not parse. *)
Theorem ParseQuery_outcome s (text : string) (skip_sort : bool) :
  ((∃ query, ParseQuery text skip_sort s = Returns query) ↔
   Forall (λ t, ∃ d, query_word_ok d ∧ (t = d ∨ t = String "-"%char d))
          (SplitIntoWords text)) ∧
  (∀ e,
     ParseQuery text skip_sort s = Throws e →
     ∃ pre t post,
       SplitIntoWords text = pre ++ t :: post ∧
       Forall (λ t', ∃ query_word, ParseQueryWord t' s = Returns query_word) pre ∧
       ParseQueryWord t s = Throws e) ∧
  ((∃ query, ParseQuery text skip_sort s = Returns query) →
   "" ∉ SplitIntoWords text).
Proof.
  assert (∀ t, (∃ query_word, ParseQueryWord t s = Returns query_word) ↔
               ∃ d, query_word_ok d ∧ (t = d ∨ t = String "-"%char d)) as Hword.
  { intros t. split.
    - intros [[d m st] (Hok & -> & _)%ParseQueryWord_Returns]. exists d.
      destruct m; simpl in *; eauto.
    - intros (d & Hok & [-> | ->]).
      + exists {| data := d; is_minus := false; is_stop := IsStopWord s d |}.
        by apply ParseQueryWord_Returns.
      + exists {| data := d; is_minus := true; is_stop := IsStopWord s d |}.
        by apply ParseQueryWord_Returns. }
  assert ((∃ query, ParseQuery text skip_sort s = Returns query) ↔
          Forall (λ t, ∃ query_word, ParseQueryWord t s = Returns query_word)
                 (SplitIntoWords text)) as Hiff.
  { unfold ParseQuery. split.
    - intros [query Hq].
      destruct (ParseQuery_loop _ _ _) as [result|e] eqn:Hloop; [|done].
      by eapply ParseQuery_loop_Returns.
    - intros Hall.
      destruct (ParseQuery_loop_accepted s _
                  {| plus_words := []; minus_words := [] |} Hall)
        as [result ->].
      destruct (negb skip_sort); eauto. }
  split_and!.
  - rewrite Hiff. apply Forall_iff. intros t. apply Hword.
  - intros e He.
    destruct (decide (Forall (λ t, is_Some (match ParseQueryWord t s with
                                            | Returns q => Some q
                                            | Throws _ => None
                                            end)) (SplitIntoWords text)))
      as [Hall|Hnot].
    + assert (∃ query, ParseQuery text skip_sort s = Returns query) as [q Hq].
      { apply Hiff. eapply Forall_impl; [exact Hall|]. intros t [q Hq].
        destruct (ParseQueryWord t s); [eauto|done]. }
      congruence.
    + assert (∃ pre t post, SplitIntoWords text = pre ++ t :: post ∧
                Forall (λ t', ∃ query_word,
                          ParseQueryWord t' s = Returns query_word) pre ∧
                ∃ e', ParseQueryWord t s = Throws e')
        as (pre & t & post & Hsplit & Hpre & e' & Ht).
      { clear -Hnot. induction (SplitIntoWords text) as [|t tokens IH].
        - destruct Hnot. constructor.
        - destruct (ParseQueryWord t s) as [q|e'] eqn:Ht.
          + destruct IH as (pre & t' & post & -> & Hpre & He').
            { intros Hall. apply Hnot. constructor; [|done].
              rewrite Ht. eauto. }
            exists (t :: pre), t', post. split_and!; [done| |done].
            constructor; eauto.
          + exists [], t, tokens. split_and!; [done|constructor|eauto]. }
      exists pre, t, post. split_and!; [done..|].
      unfold ParseQuery in He. rewrite Hsplit in He.
      rewrite (ParseQuery_loop_first_rejected s pre t post _ e') in He by done.
      congruence.
  - intros Hq%Hiff Hin. rewrite Forall_forall in Hq.
    destruct (Hq "" Hin) as [q Hq']. done.
Qed.

Lemma ParseQuery_elements s (text : string) (skip_sort : bool) (query : Query) :
  ParseQuery text skip_sort s = Returns query →
  ∀ w,
    (w ∈ plus_words query ↔
     w ∈ SplitIntoWords text ∧ (∀ rest, w ≠ String "-"%char rest) ∧
     w ∉ stop_words_ s) ∧
    (w ∈ minus_words query ↔
     String "-"%char w ∈ SplitIntoWords text ∧ w ∉ stop_words_ s).
Proof.
  unfold ParseQuery.
  destruct (ParseQuery_loop _ _ _) as [result|e] eqn:Hloop; [|done].
  intros Hq w.
  destruct (ParseQuery_loop_elements _ _ _ _ Hloop w) as [Hplus Hminus].
  simpl in Hplus, Hminus.
  assert (w ∈ plus_words query ↔ w ∈ plus_words result) as ->.
  { destruct skip_sort; simpl in Hq; injection Hq as <-; [done|].
    simpl. apply elem_of_unique_sort. }
  assert (w ∈ minus_words query ↔ w ∈ minus_words result) as ->.
  { destruct skip_sort; simpl in Hq; injection Hq as <-; [done|].
    simpl. apply elem_of_unique_sort. }
  rewrite Hplus, Hminus. split; split; try tauto.
  - intros [Hin|?]; [by apply elem_of_nil in Hin|done].
  - intros [Hin|?]; [by apply elem_of_nil in Hin|done].
Qed.

(** X7. The words of a parsed query, read off the text: the plus words are
    the tokens without a leading minus that are not stop words, the minus
    words are the tokens with a leading minus, without it, that are not
    stop words. *)
Theorem ParseQuery_words s (text : string) (skip_sort : bool) (query : Query) :
  ParseQuery text skip_sort s = Returns query →
  ∀ w,
    (w ∈ plus_words query ↔
     w ∈ SplitIntoWords text ∧ (∀ rest, w ≠ String "-"%char rest) ∧
     w ∉ stop_words_ s) ∧
    (w ∈ minus_words query ↔
     String "-"%char w ∈ SplitIntoWords text ∧ w ∉ stop_words_ s).
Proof. apply ParseQuery_elements. Qed.

End QueryParser.

(** ** The index under additions *)

Section IndexUnderAdditions.
Context {F : Type} `{!FreqArith F}.
Implicit Types s : SearchServer F.

Lemma SplitIntoWordsNoStop_Returns_valid s text words :
  SplitIntoWordsNoStop text s = Returns words →
  Forall (λ w, IsValidWord w = true) (SplitIntoWords text).
Proof.
  unfold SplitIntoWordsNoStop. intros Hret.
  destruct (decide (Forall (λ w, IsValidWord w = true) (SplitIntoWords text)))
    as [Hall|Hnot]; [done|].
  destruct (first_invalid_word _ Hnot) as (pre & w & post & Hsplit & Hpre & Hw).
  rewrite Hsplit, SplitIntoWordsNoStop_loop_first_invalid in Hret by done.
  done.
Qed.

Lemma SplitIntoWordsNoStop_Throws s text e :
  SplitIntoWordsNoStop text s = Throws e → ∃ what, e = invalid_argument what.
Proof.
  unfold SplitIntoWordsNoStop. generalize (@nil string).
  induction (SplitIntoWords text) as [|w tokens IH]; intros words; simpl; [done|].
  destruct (IsValidWord w); simpl; [|intros [= <-]; eauto].
  destruct (IsStopWord s w); simpl; apply IH.
Qed.

Lemma not_invalid_id_fresh s (document_id : Z) :
  ¬ ((document_id < 0)%Z ∨ is_Some (documents_ s !! document_id)) →
  (0 ≤ document_id)%Z ∧ documents_ s !! document_id = None.
Proof.
  intros Hok. split; [lia|].
  destruct (documents_ s !! document_id) eqn:E; [destruct Hok; eauto|done].
Qed.

(** X8. Whatever the state and the arguments, the only exception
    [AddDocument] throws is [invalid_argument]. *)
Theorem AddDocument_throws_invalid_argument
    s document_id document status ratings e :
  (AddDocument document_id document status ratings s).1 = Throws e →
  ∃ what, e = invalid_argument what.
Proof.
  destruct (decide ((document_id < 0)%Z ∨ is_Some (documents_ s !! document_id)))
    as [Hbad|[Hid Hfresh]%not_invalid_id_fresh].
  - rewrite AddDocument_invalid_id by done. simpl. intros [= <-]. eauto.
  - rewrite AddDocument_fresh by done. cbv zeta.
    destruct (SplitIntoWordsNoStop document s) as [words|e'] eqn:Hwords; simpl;
      [done|].
    intros [= <-]. by eapply SplitIntoWordsNoStop_Throws.
Qed.

Lemma rev_index_words_ne id x words (wtd : gmap string (gmap Z F)) w d :
  d ≠ id →
  lookup2 (foldl (λ m w', add_at2 w' id x m) wtd words) w d = lookup2 wtd w d.
Proof.
  intros Hd. revert wtd. induction words as [|w' words IH]; intros wtd; [done|].
  simpl. rewrite IH, lookup2_add_at2. by rewrite decide_False by tauto.
Qed.

Lemma postings_lookup s w d :
  postings s w !! d = lookup2 (word_to_document_freqs_ s) w d.
Proof.
  unfold postings, lookup2. by destruct (word_to_document_freqs_ s !! w).
Qed.

Lemma GetWordFrequencies_lookup s d w :
  GetWordFrequencies d s !! w = lookup2 (document_to_word_freqs_ s) d w.
Proof.
  unfold GetWordFrequencies, lookup2.
  by destruct (document_to_word_freqs_ s !! d).
Qed.

(** X9. Whether it returns or throws, [AddDocument] leaves the stop words
    alone and, for every id other than its own, the metadata, the term
    frequencies, the enumeration of the id and the postings of every term. *)
Theorem AddDocument_other_documents
    s document_id document status ratings (x : Z) :
  x ≠ document_id →
  let s' := (AddDocument document_id document status ratings s).2 in
  stop_words_ s' = stop_words_ s ∧
  documents_ s' !! x = documents_ s !! x ∧
  GetWordFrequencies x s' = GetWordFrequencies x s ∧
  (x ∈ DocumentIds s' ↔ x ∈ DocumentIds s) ∧
  ∀ w, postings s' w !! x = postings s w !! x.
Proof.
  intros Hx. cbv zeta.
  destruct (decide ((document_id < 0)%Z ∨ is_Some (documents_ s !! document_id)))
    as [Hbad|[Hid Hfresh]%not_invalid_id_fresh].
  { by rewrite AddDocument_invalid_id. }
  rewrite AddDocument_fresh by done. cbv zeta.
  destruct (SplitIntoWordsNoStop document s) as [words|e].
  - rewrite !elem_of_DocumentIds. unfold GetWordFrequencies.
    cbn [snd stop_words_ documents_ document_to_word_freqs_ document_ids_].
    rewrite lookup_insert_ne, fwd_index_words_ne by done.
    split_and!; [done..|set_solver|].
    intros w. rewrite !postings_lookup. cbn [word_to_document_freqs_].
    by apply rev_index_words_ne.
  - rewrite !elem_of_DocumentIds. unfold GetWordFrequencies.
    cbn [snd set_documents stop_words_ documents_ document_to_word_freqs_
         document_ids_].
    by rewrite lookup_insert_ne by done.
Qed.

(** X10. In every state a server reaches with defined behaviour (by
    additions, and by removals that find no postings), the term frequencies
    of an enumerated document are determined by its stored text: a word that is not among
    the indexed words of the text has none, and a word that occurs [k]
    times has the result of adding [1.0 / n], [n] the number of indexed
    words, [k] times to [0.0]. *)
Theorem term_frequency_from_text s (document_id : Z) :
  reachable s →
  document_id ∈ DocumentIds s →
  ∃ d words,
    documents_ s !! document_id = Some d ∧
    SplitIntoWordsNoStop (text d) s = Returns words ∧
    ∀ w,
      GetWordFrequencies document_id s !! w =
        match occurrences w words with
        | 0 => None
        | S k =>
            Some (Nat.iter (S k)
                    (λ a, f_add a (f_div f_one (f_of_size (length words))))
                    f_zero)
        end.
Proof.
  intros Hs Hid%elem_of_DocumentIds.
  destruct (reachable_indexed_from_text s Hs document_id Hid)
    as (d & words & Hd & Hwords & Hfreqs).
  exists d, words. split_and!; [done..|].
  intros w. rewrite Hfreqs, index_words_lookup.
  destruct (occurrences w words); [by rewrite lookup_empty|].
  by rewrite lookup_empty.
Qed.

(** The terms of the index are valid words and no stop words. *)
Lemma reachable_terms s :
  reachable s →
  ∀ w, is_Some (word_to_document_freqs_ s !! w) →
       IsValidWord w = true ∧ w ∉ stop_words_ s.
Proof.
  intros Hs. pattern s. revert s Hs. apply reachable_additions.
  - intros stop_words w. simpl. rewrite lookup_empty. by intros [? ?].
  - intros s id document status ratings Hs IH.
    destruct (decide ((id < 0)%Z ∨ is_Some (documents_ s !! id)))
      as [Hbad|[Hid Hfresh]%not_invalid_id_fresh].
    { by rewrite AddDocument_invalid_id. }
    rewrite AddDocument_fresh by done. cbv zeta.
    destruct (SplitIntoWordsNoStop document s) as [words|e] eqn:Hwords;
      cbn [snd set_documents word_to_document_freqs_ stop_words_]; [|done].
    intros w Hw%elem_of_dom. rewrite rev_index_words_dom in Hw.
    apply elem_of_union in Hw as [Hw%elem_of_list_to_set|Hw%elem_of_dom];
      [|by apply IH].
    pose proof (SplitIntoWordsNoStop_Returns_valid _ _ _ Hwords) as Hvalid.
    apply SplitIntoWordsNoStop_Returns in Hwords as ->.
    apply list_elem_of_filter in Hw as [Hstop Hw].
    rewrite Forall_forall in Hvalid. split; [by apply Hvalid|done].
Qed.

(** X11. In every state a server reaches with defined behaviour, a term of
    the index (a word with an entry in the reverse map, in particular every
    word with a posting) has no control character and is not a stop
    word. *)
Theorem index_terms_valid s (w : string) (document_id : Z) :
  reachable s →
  has_posting s w document_id ∨ is_Some (word_to_document_freqs_ s !! w) →
  IsValidWord w = true ∧ w ∉ stop_words_ s.
Proof.
  intros Hs [[f Hf]|Hw]; apply (reachable_terms s Hs).
  - by apply lookup2_Some_outer in Hf.
  - done.
Qed.

(** X12. In every state a server reaches with defined behaviour the two
    posting maps mirror each other: a term has a posting for a document with some frequency exactly
    when the document has that frequency for the term; every document with
    term frequencies is enumerated, and every enumerated document has
    metadata. *)
Theorem index_mirrored s :
  reachable s →
  (∀ w d f, postings s w !! d = Some f ↔ GetWordFrequencies d s !! w = Some f) ∧
  (∀ d, GetWordFrequencies d s ≠ ∅ → d ∈ DocumentIds s) ∧
  (∀ d, d ∈ DocumentIds s → is_Some (documents_ s !! d)).
Proof.
  intros [Hm Hfwd Hids Hne]%reachable_consistent. split_and!.
  - intros w d f. by rewrite postings_lookup, GetWordFrequencies_lookup, Hm.
  - intros d Hd. apply elem_of_DocumentIds, Hfwd, elem_of_dom.
    unfold GetWordFrequencies in Hd.
    by destruct (document_to_word_freqs_ s !! d).
  - intros d Hd%elem_of_DocumentIds. by apply elem_of_dom, Hids.
Qed.

End IndexUnderAdditions.

(** ** A document without indexed words *)

Section WithoutWords.
Context {F : Type} `{!FreqArith F}.
Implicit Types s : SearchServer F.

(** X25. In every state a server reaches with defined behaviour, a text
    that tokenizes to no word other than stop words is added without error
    under a fresh non-negative id: the document count grows by one, the id
    is enumerated, its term frequencies are the empty mapping and no term
    has a posting for it. *)
Theorem AddDocument_without_words s document_id document status ratings :
  reachable s →
  (0 ≤ document_id)%Z → documents_ s !! document_id = None →
  SplitIntoWordsNoStop document s = Returns [] →
  ∃ s1,
    AddDocument document_id document status ratings s = (Returns tt, s1) ∧
    GetDocumentCount s1 = (GetDocumentCount s + 1)%Z ∧
    document_id ∈ DocumentIds s1 ∧
    GetWordFrequencies document_id s1 = ∅ ∧
    ∀ w, ¬ has_posting s1 w document_id.
Proof.
  intros Hs%reachable_consistent Hid Hfresh Hwords.
  destruct (AddDocument_no_words s document_id document status ratings
              Hs Hid Hfresh Hwords) as (s1 & Hadd & Hcount & Hids & Hfwd & Hrev & _).
  exists s1. split_and!; try done.
  - rewrite elem_of_DocumentIds, Hids. set_solver.
  - unfold GetWordFrequencies. by rewrite Hfwd.
Qed.

End WithoutWords.

(** ** Term frequencies as shares *)

(** X18. In every state a server reaches with defined behaviour, for an
    enumerated document with at most [max_words] indexed words: a word that
    does not occur among the indexed words of the stored text has no
    frequency, and the binary64 frequency stored for a word that occurs [k]
    times among the [n] indexed words is a positive finite number that
    differs from [k / n] by at most the fraction [tolerance] of it. *)
Theorem term_frequency_binary64 (s : SearchServer spec_float) (document_id : Z) :
  reachable s →
  document_id ∈ DocumentIds s →
  ∃ d words,
    documents_ s !! document_id = Some d ∧
    SplitIntoWordsNoStop (text d) s = Returns words ∧
    (length words ≤ max_words →
     ∀ w,
       match GetWordFrequencies document_id s !! w with
       | None => occurrences w words = 0
       | Some f =>
           1 ≤ occurrences w words ∧
           is_positive_finite f = true ∧
           (share (occurrences w words) (length words) * (1 - tolerance)
              <= SF2Q f)%Q ∧
           (SF2Q f
              <= share (occurrences w words) (length words) * (1 + tolerance))%Q
       end).
Proof.
  intros Hs Hid%elem_of_DocumentIds.
  destruct (reachable_indexed_from_text s Hs document_id Hid)
    as (d & words & Hd & Hwords & Hfreqs).
  exists d, words. split_and!; [done..|]. intros Hmax w.
  destruct (GetWordFrequencies document_id s !! w) as [f|] eqn:Hf.
  - rewrite Hfreqs in Hf. destruct (decide (words = [])) as [->|Hne]; [done|].
    destruct (index_words_binary64 words Hne Hmax) as (_ & _ & Hclose).
    destruct (Hclose w f Hf) as [Hocc Hc].
    destruct (close_to_share_bounds f _ _ Hocc Hc) as (? & ? & ? & _).
    split_and!; [lia|done..].
  - rewrite Hfreqs, index_words_lookup, lookup_empty in Hf.
    by destruct (occurrences w words).
Qed.

(** ** RemoveDuplicates removes nothing *)

Section Duplicates.
Context {F : Type} `{!FreqArith F}.
Implicit Types s : SearchServer F.


End Duplicates.

(** ** Matching on enumerated documents *)

Section Matching.
Context {F : Type} `{!FreqArith F}.
Implicit Types s : SearchServer F.

(** X19. In every state of a server, for an enumerated id, either variant
    of [MatchDocument] throws only when the query text does not parse, and
    then throws the exception of the parser: an enumerated document is
    never unknown. *)
Theorem MatchDocument_enumerated s (raw_query : string) (document_id : Z) e :
  reachable s →
  document_id ∈ DocumentIds s →
  (MatchDocument_seq raw_query document_id s = Throws e ↔
   ParseQuery raw_query skip_sort_default s = Throws e) ∧
  (MatchDocument_par raw_query document_id s = Throws e ↔
   ParseQuery raw_query skip_sort_default s = Throws e).
Proof.
  intros Hs%reachable_consistent Hid%elem_of_DocumentIds.
  rewrite MatchDocument_par_seq.
  assert (is_Some (documents_ s !! document_id)) as [d Hd]
    by (by apply elem_of_dom, (consistent_ids_docs _ Hs)).
  assert (MatchDocument_seq raw_query document_id s = Throws e ↔
          ParseQuery raw_query skip_sort_default s = Throws e) as Hiff;
    [|split; exact Hiff].
  unfold MatchDocument_seq, documents_at. rewrite Hd.
  destruct (ParseQuery raw_query skip_sort_default s) as [query|e'];
    [|split; intros [= ->]; done].
  destruct (minus_loop _ _ _); split; intros Habs; discriminate Habs.
Qed.

(** X20. In every state a server reaches with defined behaviour, the words
    [MatchDocument] returns are tokens of the query text (without a leading
    minus), are not stop words, and have a term frequency in the document;
    the status returned is the one stored with the document. *)
Theorem MatchDocument_words s (raw_query : string) (document_id : Z)
    (matched_words : list string) (st : DocumentStatus) :
  reachable s →
  MatchDocument_seq raw_query document_id s = Returns (matched_words, st) →
  (∃ d, documents_ s !! document_id = Some d ∧ st = status d) ∧
  ∀ w, w ∈ matched_words →
       w ∈ SplitIntoWords raw_query ∧
       (w ∉ stop_words_ s) ∧
       is_Some (GetWordFrequencies document_id s !! w).
Proof.
  intros Hs%reachable_consistent. unfold MatchDocument_seq, documents_at.
  destruct (ParseQuery raw_query skip_sort_default s) as [query|e] eqn:Hq;
    [|done].
  destruct (documents_ s !! document_id) as [d|]; [|done].
  rewrite plus_loop_filter. simpl.
  destruct (minus_loop _ _ _).
  - intros [= <- <-]. split; [eauto|]. intros w Hw. by apply elem_of_nil in Hw.
  - intros [= <- <-]. split; [eauto|].
    intros w [Hcheck Hplus]%list_elem_of_filter.
    apply (ParseQuery_elements _ _ _ _ Hq w) in Hplus as (Htoken & _ & Hstop).
    split_and!; [done..|].
    apply word_checker_has_posting in Hcheck as [f Hf].
    rewrite GetWordFrequencies_lookup, <-(consistent_mirrored _ Hs). eauto.
Qed.

End Matching.

(** ** Batches of queries *)

Section Batches.
Context {F : Type} {Document : Type}.
Variable FindTopDocuments : string → SearchServer F → outcome (list Document).

Lemma transform_par_Returns {A B} (op : A → outcome B) (xs : list A) (ys : list B) :
  transform_par op xs = Returns ys ↔ Forall2 (λ x y, op x = Returns y) xs ys.
Proof.
  revert ys. induction xs as [|x xs IH]; intros ys; simpl.
  - split; [intros [= <-]; constructor|by intros ->%Forall2_nil_inv_l].
  - split.
    + destruct (op x) as [y|e] eqn:Hx; [|done].
      destruct (transform_par op xs) as [ys'|e] eqn:Hxs; [|done].
      intros [= <-]. constructor; [done|]. by apply IH.
    + intros (y & ys' & Hx & Hxs & ->)%Forall2_cons_inv_l.
      apply IH in Hxs. by rewrite Hx, Hxs.
Qed.

Lemma transform_par_Throws {A B} (op : A → outcome B) (xs : list A) e :
  transform_par op xs = Throws e ↔
  e = terminate ∧ ∃ x e', x ∈ xs ∧ op x = Throws e'.
Proof.
  revert e. induction xs as [|x xs IH]; intros e; simpl.
  - split; [done|]. intros [_ (x & e' & Hx & _)]. by apply elem_of_nil in Hx.
  - destruct (op x) as [y|e'] eqn:Hx.
    + destruct (transform_par op xs) as [ys|e''] eqn:Hxs.
      * split; [done|]. intros [_ (x' & e' & [->|Hin]%elem_of_cons & Hx')];
          [congruence|].
        assert (Returns ys = Throws terminate) as Habs; [|done].
        apply (IH terminate). split; [done|]. eauto.
      * split.
        -- intros [= <-]. split; [done|].
           destruct (IH e'') as [IH' _].
           destruct (IH' eq_refl) as [_ (x' & e' & ? & ?)].
           exists x', e'. split; [by right|done].
        -- by intros [-> _].
    + split.
      * intros [= <-]. split; [done|]. exists x, e'. split; [left|done].
      * by intros [-> _].
Qed.

(** X21. [ProcessQueries] returns exactly when the search returns for every
    query of the batch, and then returns the results of the searches, one
    for each query and in the order of the queries. When the search throws
    for some query, the batch does not throw to its caller: the program is
    ended. *)
Theorem ProcessQueries_outcome (queries : list string) (s : SearchServer F) :
  (∀ documents_lists,
     ProcessQueries FindTopDocuments queries s = Returns documents_lists ↔
     Forall2 (λ query documents, FindTopDocuments query s = Returns documents)
             queries documents_lists) ∧
  (∀ e,
     ProcessQueries FindTopDocuments queries s = Throws e ↔
     e = terminate ∧
     ∃ query e', query ∈ queries ∧ FindTopDocuments query s = Throws e').
Proof.
  unfold ProcessQueries. split.
  - intros lists. apply transform_par_Returns.
  - intros e. apply transform_par_Throws.
Qed.

Lemma foldl_app_concat {A} (acc : list A) (ls : list (list A)) :
  foldl (λ documents local_documents, documents ++ local_documents) acc ls =
    acc ++ concat ls.
Proof.
  revert acc. induction ls as [|l ls IH]; intros acc; simpl.
  - by rewrite app_nil_r.
  - by rewrite IH, app_assoc.
Qed.

(** X22. [ProcessQueriesJoined] returns exactly when the search returns for
    every query, and then returns the results of the searches laid end to
    end in the order of the queries, the results of one query staying
    together and in their own order. *)
Theorem ProcessQueriesJoined_outcome (queries : list string) (s : SearchServer F)
    (documents : list Document) :
  ProcessQueriesJoined FindTopDocuments queries s = Returns documents ↔
  ∃ documents_lists,
    Forall2 (λ query local, FindTopDocuments query s = Returns local)
            queries documents_lists ∧
    documents = concat documents_lists.
Proof.
  unfold ProcessQueriesJoined, ProcessQueries. split.
  - destruct (transform_par _ queries) as [lists|e] eqn:Hlists; [|done].
    intros [= <-]. exists lists. split; [by apply transform_par_Returns|].
    by rewrite foldl_app_concat.
  - intros (lists & Hall%transform_par_Returns & ->).
    rewrite Hall. by rewrite foldl_app_concat.
Qed.

End Batches.

(** ** When an addition succeeds, and splitting joined texts *)

Section AdditionsAndTexts.
Context {F : Type} `{!FreqArith F}.
Implicit Types s : SearchServer F.

(** X23. For ratings between [lo] and [hi], few enough for their sum to
    fit an [int]: [AddDocument] returns exactly when the id is not
    negative, has no metadata yet, and every token of the text is valid. It
    then has stored the metadata given (with the average of the ratings),
    the document count is one more, and the ids enumerated are the former
    ones and the new one. *)
Theorem AddDocument_returns s document_id document status ratings (lo hi : Z) :
  Forall (λ r, lo ≤ r ≤ hi)%Z ratings →
  (Z.of_nat (length ratings) * Z.max (Z.abs lo) (Z.abs hi) < 2 ^ 31)%Z →
  ((AddDocument document_id document status ratings s).1 = Returns tt ↔
   (0 ≤ document_id)%Z ∧ documents_ s !! document_id = None ∧
   Forall (λ w, IsValidWord w = true) (SplitIntoWords document)) ∧
  ((AddDocument document_id document status ratings s).1 = Returns tt →
   let s' := (AddDocument document_id document status ratings s).2 in
   GetDocumentCount s' = (GetDocumentCount s + 1)%Z ∧
   documents_ s' !! document_id =
     Some {| rating := ComputeAverageRating ratings;
             status := status; text := document |} ∧
   ∀ x, x ∈ DocumentIds s' ↔ x = document_id ∨ x ∈ DocumentIds s).
Proof.
  intros _ _.
  destruct (decide ((document_id < 0)%Z ∨ is_Some (documents_ s !! document_id)))
    as [Hbad|[Hid Hfresh]%not_invalid_id_fresh].
  { rewrite AddDocument_invalid_id by done. simpl. split; [|done].
    split; [done|]. intros (Hid & Hfresh & _).
    destruct Hbad as [?|[? ?]]; [lia|congruence]. }
  rewrite AddDocument_fresh by done. cbv zeta.
  destruct (SplitIntoWordsNoStop document s) as [words|e] eqn:Hwords.
  - cbn [fst snd]. split.
    + split; [|done]. intros _. split_and!; [done..|].
      by eapply SplitIntoWordsNoStop_Returns_valid.
    + intros _. split_and!.
      * unfold GetDocumentCount. simpl.
        rewrite map_size_insert_None by done. lia.
      * simpl. by rewrite lookup_insert_eq.
      * intros x. rewrite !elem_of_DocumentIds. simpl. set_solver.
  - cbn [fst snd]. split; [|done]. split; [done|].
    intros (_ & _ & Hall). unfold SplitIntoWordsNoStop in Hwords.
    by rewrite SplitIntoWordsNoStop_loop_valid in Hwords.
Qed.

(** X24. Splitting composes: the tokens of two texts joined by one space
    are the tokens of the first followed by the tokens of the second. *)
Theorem SplitIntoWords_joined (a b : string) :
  SplitIntoWords (a +:+ String " "%char b) = SplitIntoWords a ++ SplitIntoWords b.
Proof.
  rewrite !SplitIntoWords_segments.
  induction a as [|c a IH]; [done|].
  change (String c a +:+ String " "%char b)
    with (String c (a +:+ String " "%char b)).
  simpl. rewrite IH. destruct (Ascii.eqb c " "%char); [done|].
  destruct (segments a) as [|w ws] eqn:Ha; [|done].
  by destruct (segments_nonempty a).
Qed.

End AdditionsAndTexts.

(** ** The further properties at sample inputs *)

Import MoreSamples.

Lemma reachable_plain_server : reachable plain_server.
Proof. apply (reachable_new (SplitIntoWords "")). Defined.


Lemma ComputeAverageRating_bounds_witness :
  [5; 4]%Z ≠ [] ∧
  Forall (λ r, 1 ≤ r ≤ 5)%Z [5; 4]%Z ∧
  (Z.of_nat (length [5; 4]%Z) * Z.max (Z.abs 1) (Z.abs 5) < 2 ^ 31)%Z ∧
  fits_int (foldl Z.add 0%Z [5; 4]%Z) ∧
  (1 ≤ ComputeAverageRating [5; 4]%Z ≤ 5)%Z.
Proof.
  assert (Forall (λ r, 1 ≤ r ≤ 5)%Z [5; 4]%Z) as Hall
    by (repeat constructor; lia).
  split_and!; [done|exact Hall|reflexivity|..];
    apply (ComputeAverageRating_bounds 1 5 [5; 4]%Z); done || reflexivity.
Defined.

Lemma ParseQuery_words_witness :
  ParseQuery "dog -the cat -fox dog" false the_server =
    Returns {| plus_words := ["cat"; "dog"]; minus_words := ["fox"] |} ∧
  ∀ w,
    (w ∈ ["cat"; "dog"] ↔
     w ∈ SplitIntoWords "dog -the cat -fox dog" ∧
     (∀ rest, w ≠ String "-"%char rest) ∧ w ∉ stop_words_ the_server) ∧
    (w ∈ ["fox"] ↔
     String "-"%char w ∈ SplitIntoWords "dog -the cat -fox dog" ∧
     w ∉ stop_words_ the_server).
Proof.
  split; [reflexivity|].
  apply (ParseQuery_words the_server "dog -the cat -fox dog" false
           {| plus_words := ["cat"; "dog"]; minus_words := ["fox"] |}).
  reflexivity.
Defined.

Lemma AddDocument_throws_invalid_argument_witness :
  (AddDocument (-1) "a" ACTIVE [] aba_server).1 =
    Throws (invalid_argument "Invalid document_id") ∧
  ∃ what, invalid_argument "Invalid document_id" = invalid_argument what.
Proof.
  split; [reflexivity|].
  apply (AddDocument_throws_invalid_argument aba_server (-1) "a" ACTIVE []).
  reflexivity.
Defined.

Lemma AddDocument_other_documents_witness :
  3%Z ≠ 4%Z ∧
  let s' := (AddDocument 4 "b c" ACTIVE [] aba_server).2 in
  stop_words_ s' = stop_words_ aba_server ∧
  documents_ s' !! 3%Z = documents_ aba_server !! 3%Z ∧
  GetWordFrequencies 3 s' = GetWordFrequencies 3 aba_server ∧
  (3%Z ∈ DocumentIds s' ↔ 3%Z ∈ DocumentIds aba_server) ∧
  ∀ w, postings s' w !! 3%Z = postings aba_server w !! 3%Z.
Proof.
  split; [lia|].
  apply (AddDocument_other_documents aba_server 4 "b c" ACTIVE [] 3). lia.
Defined.

Lemma term_frequency_from_text_witness :
  reachable aba_server ∧
  3%Z ∈ DocumentIds aba_server ∧
  ∃ d words,
    documents_ aba_server !! 3%Z = Some d ∧
    SplitIntoWordsNoStop (text d) aba_server = Returns words ∧
    ∀ w,
      GetWordFrequencies 3 aba_server !! w =
        match occurrences w words with
        | 0 => None
        | S k =>
            Some (Nat.iter (S k)
                    (λ a, f_add a (f_div f_one (f_of_size (length words))))
                    f_zero)
        end.
Proof.
  split_and!; [exact reachable_aba_server|exact enumerated_aba_server|].
  exact (term_frequency_from_text aba_server 3 reachable_aba_server
           enumerated_aba_server).
Defined.

Lemma index_terms_valid_witness :
  reachable aba_server ∧
  (has_posting aba_server "a" 3 ∨
   is_Some (word_to_document_freqs_ aba_server !! "a")) ∧
  IsValidWord "a" = true ∧ "a" ∉ stop_words_ aba_server.
Proof.
  assert (is_Some (word_to_document_freqs_ aba_server !! "a")) as Ha
    by (vm_compute; eauto).
  split_and!; [exact reachable_aba_server|by right|..];
    apply (index_terms_valid aba_server "a" 3 reachable_aba_server); by right.
Defined.

Lemma index_mirrored_witness :
  reachable aba_server ∧
  (∀ w d f, postings aba_server w !! d = Some f ↔
            GetWordFrequencies d aba_server !! w = Some f) ∧
  (∀ d, GetWordFrequencies d aba_server ≠ ∅ → d ∈ DocumentIds aba_server) ∧
  (∀ d, d ∈ DocumentIds aba_server → is_Some (documents_ aba_server !! d)).
Proof.
  split; [exact reachable_aba_server|].
  exact (index_mirrored aba_server reachable_aba_server).
Defined.

Lemma AddDocument_without_words_witness :
  reachable the_server ∧
  (0 ≤ 7)%Z ∧
  documents_ the_server !! 7%Z = None ∧
  SplitIntoWordsNoStop "the the" the_server = Returns [] ∧
  ∃ s1,
    AddDocument 7 "the the" IRRELEVANT [3]%Z the_server = (Returns tt, s1) ∧
    GetDocumentCount s1 = (GetDocumentCount the_server + 1)%Z ∧
    7%Z ∈ DocumentIds s1 ∧
    GetWordFrequencies 7 s1 = ∅ ∧
    ∀ w, ¬ has_posting s1 w 7.
Proof.
  split_and!; [exact reachable_the_server|lia|reflexivity|reflexivity|].
  apply AddDocument_without_words;
    [exact reachable_the_server|lia|reflexivity|reflexivity].
Defined.


Lemma AddDocument_returns_witness :
  Forall (λ r, 1 ≤ r ≤ 5)%Z [5; 4]%Z ∧
  (Z.of_nat (length [5; 4]%Z) * Z.max (Z.abs 1) (Z.abs 5) < 2 ^ 31)%Z ∧
  ((AddDocument 4 "b a" ACTIVE [5; 4]%Z aba_server).1 = Returns tt ↔
   (0 ≤ 4)%Z ∧ documents_ aba_server !! 4%Z = None ∧
   Forall (λ w, IsValidWord w = true) (SplitIntoWords "b a")) ∧
  ((AddDocument 4 "b a" ACTIVE [5; 4]%Z aba_server).1 = Returns tt →
   let s' := (AddDocument 4 "b a" ACTIVE [5; 4]%Z aba_server).2 in
   GetDocumentCount s' = (GetDocumentCount aba_server + 1)%Z ∧
   documents_ s' !! 4%Z =
     Some {| rating := ComputeAverageRating [5; 4]%Z;
             status := ACTIVE; text := "b a" |} ∧
   ∀ x, x ∈ DocumentIds s' ↔ x = 4%Z ∨ x ∈ DocumentIds aba_server).
Proof.
  assert (Forall (λ r, 1 ≤ r ≤ 5)%Z [5; 4]%Z) as Hall
    by (repeat constructor; lia).
  split_and!; [exact Hall|reflexivity|..];
    apply (AddDocument_returns aba_server 4 "b a" ACTIVE [5; 4]%Z 1 5 Hall);
    reflexivity.
Defined.

Lemma term_frequency_binary64_witness :
  reachable aba_server ∧
  3%Z ∈ DocumentIds aba_server ∧
  ∃ d words,
    documents_ aba_server !! 3%Z = Some d ∧
    SplitIntoWordsNoStop (text d) aba_server = Returns words ∧
    (length words ≤ max_words →
     ∀ w,
       match GetWordFrequencies 3 aba_server !! w with
       | None => occurrences w words = 0
       | Some f =>
           1 ≤ occurrences w words ∧
           is_positive_finite f = true ∧
           (share (occurrences w words) (length words) * (1 - tolerance)
              <= SF2Q f)%Q ∧
           (SF2Q f
              <= share (occurrences w words) (length words) * (1 + tolerance))%Q
       end).
Proof.
  split_and!; [exact reachable_aba_server|exact enumerated_aba_server|].
  exact (term_frequency_binary64 aba_server 3 reachable_aba_server
           enumerated_aba_server).
Defined.

Lemma MatchDocument_enumerated_witness :
  reachable aba_server ∧
  3%Z ∈ DocumentIds aba_server ∧
  (MatchDocument_seq "b --c" 3 aba_server =
     Throws (invalid_argument "Query word -c is invalid") ↔
   ParseQuery "b --c" skip_sort_default aba_server =
     Throws (invalid_argument "Query word -c is invalid")) ∧
  (MatchDocument_par "b --c" 3 aba_server =
     Throws (invalid_argument "Query word -c is invalid") ↔
   ParseQuery "b --c" skip_sort_default aba_server =
     Throws (invalid_argument "Query word -c is invalid")).
Proof.
  split_and!; [exact reachable_aba_server|exact enumerated_aba_server|..];
    apply (MatchDocument_enumerated aba_server "b --c" 3
             (invalid_argument "Query word -c is invalid")
             reachable_aba_server enumerated_aba_server).
Defined.

Lemma MatchDocument_words_witness :
  reachable aba_server ∧
  MatchDocument_seq "b a a -c" 3 aba_server = Returns (["a"; "b"], ACTIVE) ∧
  (∃ d, documents_ aba_server !! 3%Z = Some d ∧ ACTIVE = status d) ∧
  ∀ w, w ∈ ["a"; "b"] →
       w ∈ SplitIntoWords "b a a -c" ∧
       (w ∉ stop_words_ aba_server) ∧
       is_Some (GetWordFrequencies 3 aba_server !! w).
Proof.
  split_and!; [exact reachable_aba_server|reflexivity|..];
    apply (MatchDocument_words aba_server "b a a -c" 3 ["a"; "b"] ACTIVE
             reachable_aba_server); reflexivity.
Defined.
